(** * LearnSphere: the renderer, the quiz grader, the topic selection and the
    flashcard test of [index.tsx], embedded and verified.

    JavaScript strings are modelled as [string]: a sequence of code units,
    restricted to the code units below U+0100 (one [ascii] each).  Arrays are
    lists; objects with numeric keys are [gmap nat]. *)

From Stdlib Require Import ZArith Ascii String List Lia Permutation Sorted.
From stdpp Require Import base list strings gmap sorting.

Local Open Scope Z_scope.
Local Open Scope nat_scope.

#[local] Arguments Ascii.eqb : simpl never.

(** * The program *)

(** ** String primitives of the JavaScript runtime *)

Module JsString.

(** [WhiteSpace] and [LineTerminator] code units below U+0100: what
    [String.prototype.trim] strips and what [\s] matches. *)
Definition is_whitespace (c : ascii) : bool :=
  match c with
  | "009" | "010" | "011" | "012" | "013" | " " | "160" => true
  | _ => false
  end%char.

(** [LineTerminator] code units below U+0100: what [.] does not match. *)
Definition is_line_terminator (c : ascii) : bool :=
  match c with
  | "010" | "013" => true
  | _ => false
  end%char.

(** [\d] *)
Definition is_digit (c : ascii) : bool :=
  match c with
  | "0" | "1" | "2" | "3" | "4" | "5" | "6" | "7" | "8" | "9" => true
  | _ => false
  end%char.

Fixpoint trimStart (s : string) : string :=
  match s with
  | "" => ""
  | String c s' => if is_whitespace c then trimStart s' else s
  end.

Fixpoint trimEnd (s : string) : string :=
  match s with
  | "" => ""
  | String c s' =>
      match trimEnd s' with
      | "" => if is_whitespace c then "" else String c ""
      | t => String c t
      end
  end.

(** The string ['\n']. *)
Definition LF : string := String "010" "".

(** [s.trim()] *)
Definition trim (s : string) : string := trimEnd (trimStart s).

(** [s.startsWith(pre)] *)
Fixpoint startsWith (s pre : string) {struct pre} : bool :=
  match pre, s with
  | "", _ => true
  | String a pre', String b s' => Ascii.eqb b a && startsWith s' pre'
  | String _ _, "" => false
  end.

(** [s.substring(n)] *)
Fixpoint substring (n : nat) (s : string) : string :=
  match n, s with
  | S k, String _ s' => substring k s'
  | _, _ => s
  end.

(** [s.split('\n')]: never empty, one more piece than there are newlines. *)
Fixpoint split_nl (s : string) : list string :=
  match s with
  | "" => [""]
  | String c s' =>
      if Ascii.eqb c "010" then "" :: split_nl s'
      else match split_nl s' with
           | l :: ls => String c l :: ls
           | [] => [String c ""]
           end
  end.

(** [arr.join(sep)] *)
Fixpoint join (sep : string) (l : list string) : string :=
  match l with
  | [] => ""
  | [x] => x
  | x :: ((_ :: _) as l') => x +:+ sep +:+ join sep l'
  end.

(** The truthiness of a string: non-empty. *)
Definition truthy (s : string) : bool :=
  match s with "" => false | _ => true end.

(** *** The three regular expressions of the renderer *)

Fixpoint skip_digits (s : string) : string :=
  match s with
  | String c s' => if is_digit c then skip_digits s' else s
  | "" => ""
  end.

(** [s.match(/^\d+\.\s/)]: [Some rest] when the expression matches, where
    [rest] is [s.replace(/^\d+\.\s/, '')]. *)
Definition match_ol_marker (s : string) : option string :=
  match s with
  | String c _ =>
      if is_digit c then
        match skip_digits s with
        | String "." (String w rest) =>
            if is_whitespace w then Some rest else None
        | _ => None
        end
      else None
  | "" => None
  end.

(** The lazy group [(.*?)] followed by the closing delimiter [d]: the
    shortest run of non-terminator characters after which [d] stands; the
    group and what follows the delimiter. *)
Fixpoint find_close (d : string) (s : string) : option (string * string) :=
  if startsWith s d then Some ("", substring (String.length d) s)
  else match s with
       | "" => None
       | String c s' =>
           if is_line_terminator c then None
           else match find_close d s' with
                | Some (g, r) => Some (String c g, r)
                | None => None
                end
       end.

(** [s.replace(/D(.*?)D/g, op + '$1' + cl)] for a literal delimiter [D]:
    matches are looked for from left to right; where one is found it is
    replaced and the search resumes behind it ([skip] counts the characters
    of the match still to pass), elsewhere the character is kept. *)
Fixpoint replace_spans (d op cl : string) (skip : nat) (s : string) : string :=
  match s with
  | "" => ""
  | String c s' =>
      match skip with
      | S k => replace_spans d op cl k s'
      | O =>
          if startsWith s d then
            match find_close d (substring (String.length d) s) with
            | Some (g, _) =>
                op +:+ g +:+ cl +:+
                replace_spans d op cl
                  (String.length d + String.length g + String.length d - 1) s'
            | None => String c (replace_spans d op cl 0 s')
            end
          else String c (replace_spans d op cl 0 s')
      end
  end.

Fixpoint contains_char (c : ascii) (s : string) : bool :=
  match s with
  | "" => false
  | String c' s' => Ascii.eqb c c' || contains_char c s'
  end.

End JsString.

(** ** The markdown-subset renderer: [FormattedContent] *)

Module Renderer.
Import JsString.

(** React keys: [key={index}], [key={`list-${n}`}], [key={`pre-${n}`}]. *)
Inductive Key :=
| key_index (i : nat)
| key_list (n : nat)
| key_pre (n : nat).

Inductive ListTag := ul | ol.

(** The JSX elements pushed by the renderer.  The [children] of a heading
    and the [code] of a [pre] are React text children (React escapes them
    when it writes the DOM); [html] and the items of a list are handed to
    [dangerouslySetInnerHTML] and parsed by the browser as markup. *)
Inductive Element :=
| h3 (key : Key) (children : string)
| h2 (key : Key) (children : string)
| h1 (key : Key) (children : string)
| list_el (tag : ListTag) (key : Key) (li_html : list string)
| p (key : Key) (html : string)
| pre (key : Key) (code : string).

(** [formatLine]: the [__html] of the result. *)
Definition formatLine (line : string) : string :=
  let line := replace_spans "**" "<strong>" "</strong>" 0 line in
  let line := replace_spans "*" "<em>" "</em>" 0 line in
  line.

(** The local variables of the [useMemo] callback. *)
Record State := mkState {
  elements : list Element;
  listType : option ListTag;
  listItems : list string;
  isCodeBlock : bool;
  codeContent : string
}.

Definition init : State :=
  {| elements := []; listType := None; listItems := [];
     isCodeBlock := false; codeContent := "" |}.

Definition closeList (st : State) : State :=
  match listType st, listItems st with
  | Some tag, _ :: _ =>
      {| elements := elements st ++
           [list_el tag (key_list (length (elements st)))
              (map formatLine (listItems st))];
         listType := None; listItems := [];
         isCodeBlock := isCodeBlock st; codeContent := codeContent st |}
  | _, _ => st
  end.

Definition closeCodeBlock (st : State) : State :=
  if isCodeBlock st then
    {| elements := elements st ++
         [pre (key_pre (length (elements st))) (codeContent st)];
       listType := listType st; listItems := listItems st;
       isCodeBlock := false; codeContent := "" |}
  else st.

Definition push (e : Element) (st : State) : State :=
  {| elements := elements st ++ [e];
     listType := listType st; listItems := listItems st;
     isCodeBlock := isCodeBlock st; codeContent := codeContent st |}.

Definition push_item (tag : ListTag) (item : string) (st : State) : State :=
  {| elements := elements st;
     listType := Some tag; listItems := listItems st ++ [item];
     isCodeBlock := isCodeBlock st; codeContent := codeContent st |}.

Definition is_tag (tag : ListTag) (o : option ListTag) : bool :=
  match tag, o with
  | ul, Some ul | ol, Some ol => true
  | _, _ => false
  end.

(** The body of [lines.forEach((line, index) => ...)]. *)
Definition processLine (st : State) (index : nat) (line : string) : State :=
  if startsWith (trim line) "```" then
    if isCodeBlock st then closeCodeBlock st
    else
      let st := closeList st in
      {| elements := elements st; listType := listType st;
         listItems := listItems st;
         isCodeBlock := true; codeContent := codeContent st |}
  else if isCodeBlock st then
    {| elements := elements st; listType := listType st;
       listItems := listItems st; isCodeBlock := true;
       codeContent := codeContent st +:+ line +:+ LF |}
  else
    let trimmedLine := trim line in
    if startsWith trimmedLine "### " then
      push (h3 (key_index index) (substring 4 trimmedLine)) (closeList st)
    else if startsWith trimmedLine "## " then
      push (h2 (key_index index) (substring 3 trimmedLine)) (closeList st)
    else if startsWith trimmedLine "# " then
      push (h1 (key_index index) (substring 2 trimmedLine)) (closeList st)
    else if startsWith trimmedLine "* " || startsWith trimmedLine "- " then
      let st := if is_tag ul (listType st) then st else closeList st in
      push_item ul (substring 2 trimmedLine) st
    else
      match match_ol_marker trimmedLine with
      | Some rest =>
          let st := if is_tag ol (listType st) then st else closeList st in
          push_item ol rest st
      | None =>
          if truthy trimmedLine then
            push (p (key_index index) (formatLine line)) (closeList st)
          else st
      end.

Fixpoint forEachLine (st : State) (index : nat) (lines : list string) : State :=
  match lines with
  | [] => st
  | line :: rest => forEachLine (processLine st index line) (S index) rest
  end.

(** What the callback returns for the lines of the content. *)
Definition render_lines (lines : list string) : list Element :=
  elements (closeCodeBlock (closeList (forEachLine init 0 lines))).

Definition FormattedContent (content : string) : list Element :=
  render_lines (split_nl content).

(** *** Kinds of lines and of elements, for the statements *)

(** A line of a list: what its item text is.  An unordered item starts,
    once trimmed, with one of the two bullet markers; an ordered item with
    digits, a period and a white space. *)
Definition item_of (tag : ListTag) (line : string) : option string :=
  let t := trim line in
  match tag with
  | ul => if startsWith t "* " || startsWith t "- "
          then Some (substring 2 t) else None
  | ol => match_ol_marker t
  end.


Definition open_item (tag : ListTag) (item : string) (st : State) : State :=
  push_item tag item (if is_tag tag (listType st) then st else closeList st).


(** A line that ends up as a paragraph: no fence line, no heading, no
    list item, and not empty once trimmed. *)
Definition is_paragraph (line : string) : bool :=
  let t := trim line in
  negb (startsWith t "```")
  && negb (startsWith t "### ") && negb (startsWith t "## ")
  && negb (startsWith t "# ")
  && negb (startsWith t "* " || startsWith t "- ")
  && negb (bool_decide (is_Some (match_ol_marker t)))
  && truthy t.

(** A heading line: its level and its text. *)
Definition heading_of (line : string) : option (nat * string) :=
  let t := trim line in
  if startsWith t "### " then Some (3, substring 4 t)
  else if startsWith t "## " then Some (2, substring 3 t)
  else if startsWith t "# " then Some (1, substring 2 t)
  else None.

Definition heading (level : nat) (key : Key) (text : string) : Element :=
  match level with
  | 3 => h3 key text
  | 2 => h2 key text
  | _ => h1 key text
  end.

Definition is_list_el (e : Element) : bool :=
  match e with list_el _ _ _ => true | _ => false end.


(** How many list blocks a rendering has. *)
Definition count_lists (els : list Element) : nat :=
  length (List.filter is_list_el els).

End Renderer.

Import JsString Renderer.

(** ** Topic selection: [TopicSelectionStep] *)

Module Topics.

(** [type TopicSelection = { unit: string | null; topics: string[] }] *)
Record TopicSelection := mkSelection {
  unit : option string;
  topics : list string
}.

(** The initial state of [topicSelection], and what [resetFlow] sets. *)
Definition empty : TopicSelection := {| unit := None; topics := [] |}.

(** [selection.unit === unitName] *)
Definition unit_is (selection : TopicSelection) (unitName : string) : bool :=
  match unit selection with
  | Some u => String.eqb u unitName
  | None => false
  end.

(** [arr.includes(x)] *)
Definition includes (l : list string) (x : string) : bool :=
  existsb (String.eqb x) l.

(** The selection after [handleUnitSelect(unitName)]. *)
Definition handleUnitSelect (selection : TopicSelection) (unitName : string)
  : TopicSelection :=
  if unit_is selection unitName
  then {| unit := None; topics := [] |}
  else {| unit := Some unitName; topics := [] |}.

Definition newTopics (selection : TopicSelection) (topicName : string)
  : list string :=
  if includes (topics selection) topicName
  then List.filter (λ t, negb (String.eqb t topicName)) (topics selection)
  else topics selection ++ [topicName].

(** The selection after [handleTopicSelect(topicName)]: the early [return]
    leaves it as it was. *)
Definition handleTopicSelect (selection : TopicSelection) (topicName : string)
  : TopicSelection :=
  if 3 <? length (newTopics selection topicName) then selection
  else {| unit := None; topics := newTopics selection topicName |}.

(** The selections the handlers can produce from the initial one. *)
Inductive reachable : TopicSelection → Prop :=
| reach_empty : reachable empty
| reach_unit s unitName :
    reachable s → reachable (handleUnitSelect s unitName)
| reach_topic s topicName :
    reachable s → reachable (handleTopicSelect s topicName)
| reach_reset s : reachable s → reachable empty.

(** The invariant of the data model: at most three topics, and never a unit
    together with topics. *)
Definition exclusive (s : TopicSelection) : Prop :=
  length (topics s) ≤ 3 ∧ (unit s = None ∨ topics s = []).

End Topics.

(** ** Quiz grading: [QuizRunner] *)

Module Quiz.

Inductive QuizType := mcq_single | mcq_multiple | subjective_short.

Record QuizQuestion := mkQuestion {
  question : string;
  options : option (list string);
  answer : list string;
  type : QuizType;
  explanation : string
}.

Record Quiz := mkQuiz {
  title : string;
  questions : list QuizQuestion;
  swotAnalysis : string
}.

(** *** [Array.prototype.sort] without a comparator

    The elements are strings, compared by code units: [String.le].  The
    order is total, so the sorted array does not depend on the algorithm of
    the engine; merge sort stands for it. *)
Definition sort (l : list string) : list string := merge_sort String.le l.

(** *** [JSON.stringify] of an array of strings *)

Definition dquote : ascii := "034".
Definition backslash : ascii := "092".

Definition hex_digit (n : N) : ascii :=
  match n with
  | 0 => "0" | 1 => "1" | 2 => "2" | 3 => "3" | 4 => "4" | 5 => "5"
  | 6 => "6" | 7 => "7" | 8 => "8" | 9 => "9" | 10 => "a" | 11 => "b"
  | 12 => "c" | 13 => "d" | 14 => "e" | _ => "f"
  end%N%char.

(** [UnicodeEscape]: a backslash, [u] and four lower-case hex digits. *)
Definition UnicodeEscape (c : ascii) : string :=
  let n := N_of_ascii c in
  String backslash (String "u" (String "0" (String "0"
    (String (hex_digit (n / 16)) (String (hex_digit (n mod 16)) ""))))).

(** One code unit of [QuoteJSONString]. *)
Definition quote_char (c : ascii) : string :=
  match c with
  | "008" => String backslash "b"
  | "009" => String backslash "t"
  | "010" => String backslash "n"
  | "012" => String backslash "f"
  | "013" => String backslash "r"
  | "034" => String backslash (String dquote "")
  | "092" => String backslash (String backslash "")
  | _ => if (N_of_ascii c <? 32)%N then UnicodeEscape c else String c ""
  end%char.

Fixpoint quote_body (s : string) : string :=
  match s with
  | "" => ""
  | String c s' => quote_char c +:+ quote_body s'
  end.

Definition QuoteJSONString (s : string) : string :=
  String dquote (quote_body s +:+ String dquote "").

Definition JSON_stringify (l : list string) : string :=
  "[" +:+ JsString.join "," (map QuoteJSONString l) +:+ "]".

(** *** [handleSubmit]: the grading loop

    [q.answer.sort()] and [(userAnswers[i] || []).sort()] sort in place: the
    question object of the [quiz] prop and the array held in the
    [userAnswers] state are the ones that get sorted, and the loop below
    hands both back as they are after it.  A question object is referred to
    by its index in [quiz.questions]: [incorrectQuestions] holds such
    references. *)

Definition set_answer (q : QuizQuestion) (a : list string) : QuizQuestion :=
  {| question := question q; options := options q; answer := a;
     type := type q; explanation := explanation q |}.

Record Grading := mkGrading {
  g_questions : list QuizQuestion;
  g_userAnswers : gmap nat (list string);
  score : nat;
  incorrectQuestions : list nat
}.

(** [userAnswers[i] || []] *)
Definition given (userAnswers : gmap nat (list string)) (i : nat)
  : list string :=
  default [] (userAnswers !! i).

Fixpoint forEachQuestion (i : nat) (qs : list QuizQuestion)
    (userAnswers : gmap nat (list string))
    (score : nat) (incorrectQuestions : list nat) : Grading :=
  match qs with
  | [] => {| g_questions := []; g_userAnswers := userAnswers;
             score := score; incorrectQuestions := incorrectQuestions |}
  | q :: rest =>
      let correctAnswers := sort (answer q) in
      let givenAnswers := sort (given userAnswers i) in
      let userAnswers :=
        match userAnswers !! i with
        | Some _ => <[i := givenAnswers]> userAnswers
        | None => userAnswers
        end in
      let r :=
        if String.eqb (JSON_stringify correctAnswers)
                      (JSON_stringify givenAnswers)
        then forEachQuestion (S i) rest userAnswers
               (S score) incorrectQuestions
        else forEachQuestion (S i) rest userAnswers
               score (incorrectQuestions ++ [i])
      in
      {| g_questions := set_answer q correctAnswers :: g_questions r;
         g_userAnswers := g_userAnswers r;
         score := Quiz.score r;
         incorrectQuestions := Quiz.incorrectQuestions r |}
  end.

Definition grade (quiz : Quiz) (userAnswers : gmap nat (list string))
  : Grading :=
  forEachQuestion 0 (questions quiz) userAnswers 0 [].

(** The [quiz] prop after grading. *)
Definition quiz_after (quiz : Quiz) (g : Grading) : Quiz :=
  {| title := title quiz; questions := g_questions g;
     swotAnalysis := swotAnalysis quiz |}.

(** The question objects a list of references stands for. *)
Definition deref (qs : list QuizQuestion) (refs : list nat)
  : list QuizQuestion :=
  omap (λ i, qs !! i) refs.

(** *** The grading as the specification words it, and what the
    statements need *)

(** The comparison of [handleSubmit] for one question. *)
Definition same_json (q : QuizQuestion) (g : list string) : bool :=
  String.eqb (JSON_stringify (sort (answer q))) (JSON_stringify (sort g)).

(** The grading as the specification words it: both answer arrays are
    sorted and compared for equality; a missing user answer counts as the
    empty array; the score counts the equal questions and the unequal ones
    are listed in question order. *)
Definition equal_sorted (q : QuizQuestion) (g : list string) : bool :=
  bool_decide (sort (answer q) = sort g).

Fixpoint score_spec (i : nat) (qs : list QuizQuestion)
    (userAnswers : gmap nat (list string)) : nat :=
  match qs with
  | [] => 0
  | q :: rest =>
      (if equal_sorted q (given userAnswers i) then 1 else 0)
      + score_spec (S i) rest userAnswers
  end.

Fixpoint incorrect_spec (i : nat) (qs : list QuizQuestion)
    (userAnswers : gmap nat (list string)) : list nat :=
  match qs with
  | [] => []
  | q :: rest =>
      (if equal_sorted q (given userAnswers i) then [] else [i])
      ++ incorrect_spec (S i) rest userAnswers
  end.

(** The [userAnswers] object after the step for question [i]. *)
Definition sort_given (ua : gmap nat (list string)) (i : nat)
  : gmap nat (list string) :=
  match ua !! i with
  | Some _ => <[i := sort (given ua i)]> ua
  | None => ua
  end.

Definition paris_quiz : Quiz :=
  {| title := "Capitals";
     questions := [ {| question := "Capital of France?"; options := None;
                       answer := ["Paris"]; type := subjective_short;
                       explanation := "Paris is the capital." |} ];
     swotAnalysis := "" |}.

(** *** Reading a quoted string back *)

(** Reading one quoted code unit back. *)
Definition unhex (c : ascii) : N :=
  match c with
  | "0" => 0 | "1" => 1 | "2" => 2 | "3" => 3 | "4" => 4 | "5" => 5
  | "6" => 6 | "7" => 7 | "8" => 8 | "9" => 9 | "a" => 10 | "b" => 11
  | "c" => 12 | "d" => 13 | "e" => 14 | _ => 15
  end%N%char.

Definition unescape (e : ascii) (r : string) : option (ascii * string) :=
  match e with
  | "b" => Some ("008", r)
  | "t" => Some ("009", r)
  | "n" => Some ("010", r)
  | "f" => Some ("012", r)
  | "r" => Some ("013", r)
  | "034" => Some ("034", r)
  | "092" => Some ("092", r)
  | "u" =>
      match r with
      | String _ (String _ (String h (String l r'))) =>
          Some (ascii_of_N (16 * unhex h + unhex l), r')
      | _ => None
      end
  | _ => None
  end%char.

Definition unquote_char (s : string) : option (ascii * string) :=
  match s with
  | String c r =>
      if Ascii.eqb c backslash then
        match r with
        | String e r' => unescape e r'
        | EmptyString => None
        end
      else if Ascii.eqb c dquote then None
      else Some (c, r)
  | EmptyString => None
  end.

(** What follows the first element of a non-empty array. *)
Definition more (l : list string) (close : string) : string :=
  match l with
  | [] => close
  | _ :: _ => "," +:+ join "," (map QuoteJSONString l) +:+ close
  end.

End Quiz.

(** ** [handleSubmit]: grading, then the request for suggestions *)

Module QuizRunner.
Import Quiz Topics.

(** What an identifier of the scope stands for.  [QuizRunner] reads the
    identifier [ai], which [index.tsx] declares neither in the component
    nor at the top level of the module: it is bound only if something
    outside of the file defines a global of that name. *)
Inductive Binding := unbound | bound (truthy : bool).

(** What becomes of [await api.generateContent(...)]: the client is missing
    and the call throws before any request, or the request is sent and the
    promise rejects, or it resolves with a text. *)
Inductive Outcome := no_client | rejects | resolves (text : string).

(** How the promise returned by [handleSubmit] settles. *)
Inductive Completion := fulfilled | ReferenceError (name : string).

(** The state of the component. *)
Record Component := mkComponent {
  userAnswers : gmap nat (list string);
  submitted : bool;
  results : option (nat * list nat);
  personalizedSuggestions : string;
  isLoadingSuggestions : bool
}.

Definition mounted : Component :=
  {| userAnswers := ∅; submitted := false; results := None;
     personalizedSuggestions := ""; isLoadingSuggestions := false |}.

Record Run := mkRun {
  quiz_prop : Quiz;
  state : Component;
  requests : list (string * string);
  completion : Completion
}.

Definition DQ : string := String dquote "".

Definition selectionText (topicSelection : TopicSelection) : string :=
  match unit topicSelection with
  | Some (String c u) => "the unit " +:+ DQ +:+ String c u +:+ DQ
  | _ => "the topics: " +:+ join ", " (topics topicSelection)
  end.

Definition incorrectPrompt (q : QuizQuestion) : string :=
  "Question: " +:+ question q +:+ LF +:+
  "Correct Answer: " +:+ join ", " (answer q) +:+ LF +:+
  "Explanation: " +:+ explanation q.

Definition prompt (subject : string) (topicSelection : TopicSelection)
    (incorrect : list QuizQuestion) : string :=
  "A student studying " +:+ DQ +:+ subject +:+ DQ +:+ " for " +:+
  selectionText topicSelection +:+
  " answered some quiz questions incorrectly. Based on their errors below, generate a "
  +:+ DQ +:+ "Personalized Study Suggestions" +:+ DQ +:+
  " section. For each incorrect area, explain the core concept they might be missing and suggest 1-2 high-quality online resources (like a specific Wikipedia page, a university lecture video on YouTube, or a well-regarded tutorial article) to help them understand it better. Format this as markdown."
  +:+ LF +:+ LF +:+ "INCORRECT QUESTIONS:" +:+ LF +:+
  join (LF +:+ LF) (map incorrectPrompt incorrect).

Definition fallback : string :=
  "Could not generate personalized suggestions at this time.".

(** The state once [setResults] and [setSubmitted] are done. *)
Definition committed (st : Component) (g : Grading) : Component :=
  {| userAnswers := g_userAnswers g; submitted := true;
     results := Some (score g, incorrectQuestions g);
     personalizedSuggestions := personalizedSuggestions st;
     isLoadingSuggestions := isLoadingSuggestions st |}.

Definition with_suggestions (st : Component) (text : string) : Component :=
  {| userAnswers := userAnswers st; submitted := submitted st;
     results := results st;
     personalizedSuggestions := text; isLoadingSuggestions := false |}.

Definition handleSubmit (ai : Binding) (subject : string)
    (topicSelection : TopicSelection) (quiz : Quiz) (st : Component)
    (outcome : Outcome) : Run :=
  let g := grade quiz (userAnswers st) in
  let quiz := quiz_after quiz g in
  let st := committed st g in
  let settled st reqs c :=
    {| quiz_prop := quiz; state := st; requests := reqs; completion := c |} in
  match incorrectQuestions g with
  | [] => settled st [] fulfilled
  | _ :: _ =>
      match ai with
      | unbound => settled st [] (ReferenceError "ai")
      | bound false => settled st [] fulfilled
      | bound true =>
          let request :=
            ("gemini-2.5-flash",
             prompt subject topicSelection
               (deref (questions quiz) (incorrectQuestions g))) in
          match outcome with
          | no_client => settled (with_suggestions st fallback) [] fulfilled
          | rejects =>
              settled (with_suggestions st fallback) [request] fulfilled
          | resolves text =>
              settled (with_suggestions st text) [request] fulfilled
          end
      end
  end.

End QuizRunner.

(** ** The flashcard test: [FlashcardView] and [FlashcardTestView] *)

Module Flashcards.

Record Flashcard := mkCard { question : string; answer : string }.

(** A cell of an array of cards: a card, or [undefined] (what
    [splice(i, 1)[0]] is when nothing is removed). *)
Definition Slot : Type := option Flashcard.
Definition undefined : Slot := None.

Record TestState := mkTest {
  active : bool;
  cardsToTest : list Slot;
  masteredCards : list Slot;
  currentIndex : nat;
  showAnswer : bool
}.

(** The initial [testState] of [FlashcardView]. *)
Definition browsing : TestState :=
  {| active := false; cardsToTest := []; masteredCards := [];
     currentIndex := 0; showAnswer := false |}.

(** *** [Math.random]

    A draw is the double [m / 2^53] for an integer [0 <= m < 2^53], as the
    engines produce it.  [random_times_half m len] is the numerator [n] of
    the double [n / 2^54] nearest to the product of the draw and
    [len / 2], ties to even: the product [m * len / 2^54] itself when
    [m * len] fits the 53 bits of a significand, and else [m * len] rounded
    to its 53 leading bits.  Array lengths are below [2^32], so [len / 2]
    is a double and nothing overflows. *)
Definition significand_bits : Z := 53.

Definition round_half_even (n d : Z) : Z :=
  let q := (n / 2 ^ d)%Z in
  let r := (n mod 2 ^ d)%Z in
  let half := (2 ^ (d - 1))%Z in
  if (r <? half)%Z then q
  else if (half <? r)%Z then (q + 1)%Z
  else if Z.even q then q else (q + 1)%Z.

Definition random_times_half (m len : Z) : Z :=
  let n := (m * len)%Z in
  let d := (Z.log2 n + 1 - significand_bits)%Z in
  if (d <=? 0)%Z then n else (round_half_even n d * 2 ^ d)%Z.

(** [Math.floor(len / 2) + Math.floor(Math.random() * (len / 2))] *)
Definition insertIndex (len : nat) (m : Z) : nat :=
  Z.to_nat (Z.of_nat len / 2 + random_times_half m (Z.of_nat len) / 2 ^ 54).

(** *** [Array.prototype.sort] with the comparator
    [() => Math.random() - 0.5]

    The comparator answers by a draw, whatever it compares: the order the
    engine leaves the array in is its own business.  Insertion sort stands
    for the engine; [oracle k] is the [k]-th draw. *)
Section Shuffle.
Context {A : Type} (oracle : nat → Z).

(** [Math.random() - 0.5 < 0] for the draw [m / 2^53]. *)
Definition before (m : Z) : bool := (2 * m <? 2 ^ 53)%Z.

Fixpoint insert_by (x : A) (l : list A) (k : nat) : list A * nat :=
  match l with
  | [] => ([x], k)
  | y :: l' =>
      if before (oracle k) then (x :: y :: l', S k)
      else let '(r, k') := insert_by x l' (S k) in (y :: r, k')
  end.

Fixpoint sort_by (l : list A) (k : nat) : list A * nat :=
  match l with
  | [] => ([], k)
  | x :: l' => let '(s, k') := sort_by l' k in insert_by x s k'
  end.

Definition shuffle (l : list A) : list A := fst (sort_by l 0).
End Shuffle.

(** The [onClick] of "Test My Knowledge". *)
Definition startTest (flashcards : list Flashcard) (oracle : nat → Z)
  : TestState :=
  {| active := true;
     cardsToTest := shuffle oracle (Some <$> flashcards);
     masteredCards := []; currentIndex := 0; showAnswer := false |}.

(** The [onClick] of "Show Answer". *)
Definition reveal (state : TestState) : TestState :=
  {| active := active state; cardsToTest := cardsToTest state;
     masteredCards := masteredCards state;
     currentIndex := currentIndex state; showAnswer := true |}.

(** The [onClick] of "Back to Flashcards". *)
Definition back (state : TestState) : TestState :=
  {| active := false; cardsToTest := cardsToTest state;
     masteredCards := masteredCards state;
     currentIndex := currentIndex state; showAnswer := showAnswer state |}.

(** [arr.splice(i, 1)[0]] and what is left of [arr]. *)
Definition splice_out (i : nat) (l : list Slot) : Slot * list Slot :=
  (default undefined (l !! i), delete i l).

(** [arr.splice(i, 0, x)]: an index beyond the end is the end. *)
Definition splice_in (i : nat) (x : Slot) (l : list Slot) : list Slot :=
  take i l ++ x :: drop i l.

(** [handleAnswer(knewIt)], with the draw [m] of its [Math.random()]. *)
Definition handleAnswer (state : TestState) (knewIt : bool) (m : Z)
  : TestState :=
  let '(card, rest) := splice_out (currentIndex state) (cardsToTest state) in
  let cardsToTest :=
    if knewIt then rest
    else splice_in (insertIndex (length rest) m) card rest in
  {| active := active state;
     cardsToTest := cardsToTest;
     masteredCards :=
       if knewIt then masteredCards state ++ [card] else masteredCards state;
     currentIndex :=
       if length cardsToTest <=? currentIndex state then 0
       else currentIndex state;
     showAnswer := false |}.

Definition is_draw (m : Z) : Prop := (0 ≤ m < 2 ^ 53)%Z.

(** What the buttons of the two views can do, for the deck [flashcards].
    The answer buttons exist only while a card is shown with its answer. *)
Inductive step (flashcards : list Flashcard) : TestState → TestState → Prop :=
| step_start st oracle :
    active st = false →
    step flashcards st (startTest flashcards oracle)
| step_reveal st :
    active st = true → cardsToTest st ≠ [] → showAnswer st = false →
    step flashcards st (reveal st)
| step_answer st knewIt m :
    active st = true → cardsToTest st ≠ [] → showAnswer st = true →
    is_draw m →
    step flashcards st (handleAnswer st knewIt m)
| step_back st :
    active st = true → cardsToTest st = [] →
    step flashcards st (back st).

(** The states the buttons lead to from the initial one. *)
Definition reached (flashcards : list Flashcard) (st : TestState) : Prop :=
  rtc (step flashcards) browsing st.

(** *** The cards of a state, and a test of three cards *)

(** The cards of a state, those to test and those mastered. *)
Definition all_cards (st : TestState) : list Slot :=
  cardsToTest st ++ masteredCards st.

Definition partitioned (flashcards : list Flashcard) (st : TestState)
  : Prop :=
  all_cards st ≡ₚ Some <$> flashcards
  ∧ (cardsToTest st ≠ [] → currentIndex st < length (cardsToTest st)).

Definition card_a : Flashcard := {| question := "2 + 2"; answer := "4" |}.
Definition card_b : Flashcard := {| question := "3 + 3"; answer := "6" |}.
Definition card_c : Flashcard := {| question := "4 + 4"; answer := "8" |}.

(** A test of three cards in which the first card shown was known. *)
Definition one_known : TestState :=
  handleAnswer (reveal (startTest [card_a; card_b; card_c] (λ _, 0%Z)))
    true 0.

End Flashcards.

(** ** The answers of the user: [handleAnswerChange] *)

Module Answers.

(** The updater passed to [setUserAnswers]: the next [userAnswers] for the
    previous one.  [{ ...prev }] is a copy: [prev] is left as it is. *)
Definition handleAnswerChange (prev : gmap nat (list string))
    (questionIndex : nat) (answer : string) (isMultiChoice : bool)
  : gmap nat (list string) :=
  let currentAnswers := default [] (prev !! questionIndex) in
  if isMultiChoice then
    if Topics.includes currentAnswers answer then
      <[questionIndex :=
          List.filter (λ a, negb (String.eqb a answer)) currentAnswers]> prev
    else <[questionIndex := currentAnswers ++ [answer]]> prev
  else <[questionIndex := [answer]]> prev.

(** The check boxes of a multiple-choice question clicked one after the
    other. *)
Definition click_all (prev : gmap nat (list string)) (questionIndex : nat)
    (clicks : list string) : gmap nat (list string) :=
  foldl (λ ua a, handleAnswerChange ua questionIndex a true) prev clicks.

End Answers.

(** ** Browsing the deck: [FlashcardView] *)

Module Browse.

(** The two states of [FlashcardView] next to [testState]. *)
Record View := mkView {
  currentCardIndex : Z;
  isFlipped : bool
}.

Definition first_card : View := {| currentCardIndex := 0; isFlipped := false |}.

(** The [onClick] of "Previous". *)
Definition previous (v : View) : View :=
  {| currentCardIndex := Z.max 0 (currentCardIndex v - 1);
     isFlipped := false |}.

(** The [onClick] of "Next", for a deck of [n] cards. *)
Definition next (n : nat) (v : View) : View :=
  {| currentCardIndex := Z.min (Z.of_nat n - 1) (currentCardIndex v + 1);
     isFlipped := false |}.

(** The [onClick] of the card. *)
Definition flip (v : View) : View :=
  {| currentCardIndex := currentCardIndex v; isFlipped := negb (isFlipped v) |}.

Inductive Button := Previous | Next | Card.

Definition press (n : nat) (v : View) (b : Button) : View :=
  match b with
  | Previous => previous v
  | Next => next n v
  | Card => flip v
  end.

(** [flashcards[currentCardIndex]]: no card at a negative index. *)
Definition card {A} (flashcards : list A) (v : View) : option A :=
  if (currentCardIndex v <? 0)%Z then None
  else flashcards !! Z.to_nat (currentCardIndex v).

End Browse.

(** ** The flashcard test run to its end *)

Module Runs.
Import Flashcards.

(** "Show Answer" and "I Knew It!", [n] times over. *)
Definition know_all (n : nat) (m : Z) (st : TestState) : TestState :=
  Nat.iter n (λ st, handleAnswer (reveal st) true m) st.

End Runs.

(** ** File names and the CSV file of a deck *)

Module Files.
Import Flashcards.

(** What [/[^a-z0-9_.-]/gi] does not match: letters of either case,
    digits, underscore, period and hyphen. *)
Definition is_filename_char (c : ascii) : bool :=
  let n := N_of_ascii c in
  ((97 <=? n) && (n <=? 122) || (65 <=? n) && (n <=? 90)
   || (48 <=? n) && (n <=? 57))%N
  || Ascii.eqb c "_" || Ascii.eqb c "." || Ascii.eqb c "-".

(** [name.replace(/[^a-z0-9_.-]/gi, '_')] *)
Fixpoint replace_unsafe (name : string) : string :=
  match name with
  | "" => ""
  | String c rest =>
      String (if is_filename_char c then c else "_"%char) (replace_unsafe rest)
  end.

(** [s.substring(0, n)] *)
Fixpoint substring_to (n : nat) (s : string) : string :=
  match n, s with
  | S k, String c rest => String c (substring_to k rest)
  | _, _ => ""
  end.

Definition sanitize (limit : nat) (name : string) : string :=
  substring_to limit (replace_unsafe name).

(** The [sanitizeFilename] of the module. *)
Definition sanitizeFilename : string → string := sanitize 100.

(** The [sanitizeFilename] of [ResultView], which hides the other one. *)
Definition ResultView_sanitizeFilename : string → string := sanitize 50.

(** The [replace] of [downloadFlashcards]: every double quote becomes two. *)
Fixpoint double_quotes (s : string) : string :=
  match s with
  | "" => ""
  | String c rest =>
      if Ascii.eqb c Quiz.dquote
      then String Quiz.dquote (String Quiz.dquote (double_quotes rest))
      else String c (double_quotes rest)
  end.

Definition csv_field (s : string) : string :=
  String Quiz.dquote (double_quotes s +:+ String Quiz.dquote "").

(** The row of one card in [downloadFlashcards]. *)
Definition csv_row (fc : Flashcard) : string :=
  csv_field (question fc) +:+ "," +:+ csv_field (answer fc).

(** [csvContent] in [downloadFlashcards], before [encodeURI]. *)
Definition csvContent (result : list Flashcard) : string :=
  "data:text/csv;charset=utf-8," +:+ "Question,Answer" +:+ LF +:+
  join LF (map csv_row result).

(** All characters of a string satisfy a test. *)
Fixpoint all_chars (f : ascii → bool) (s : string) : bool :=
  match s with
  | "" => true
  | String c rest => f c && all_chars f rest
  end.

(** What may follow the closing quote of a field: no quote. *)
Definition no_quote_ahead (r : string) : Prop :=
  match r with
  | String c _ => c ≠ Quiz.dquote
  | EmptyString => True
  end.

(** The rows behind the first one. *)
Definition more_rows (l : list Flashcard) : string :=
  match l with
  | [] => ""
  | _ :: _ => LF +:+ join LF (map csv_row l)
  end.

End Files.

(** ** The check boxes of [TopicSelectionStep] *)

Module TopicsView.
Import Topics.

(** The [disabled] of the check box of a topic. *)
Definition checkbox_disabled (selection : TopicSelection) (topic : string)
  : bool :=
  (3 <=? length (topics selection))
  && negb (includes (topics selection) topic).

(** [isNextDisabled]: [!selection.unit] holds of [null] and of the empty
    string. *)
Definition isNextDisabled (selection : TopicSelection) : bool :=
  negb (match unit selection with Some u => truthy u | None => false end)
  && (length (topics selection) =? 0).

End TopicsView.

(** ** Keys and blank input of the renderer *)

Module RendererView.

Definition key_of (e : Element) : Key :=
  match e with
  | h3 k _ | h2 k _ | h1 k _ | list_el _ k _ | p k _ | pre k _ => k
  end.

(** A key that the callback can still give out once it has [len] elements
    and is at line [index]. *)
Definition key_used (len index : nat) (k : Key) : Prop :=
  match k with
  | key_index i => i < index
  | key_list n | key_pre n => n < len
  end.

Definition keys_fresh (els : list Element) (index : nat) : Prop :=
  NoDup (key_of <$> els)
  ∧ Forall (key_used (length els) index) (key_of <$> els).

(** A character that can stand inside a span: no asterisk, and none of the
    line terminators that [.] does not match. *)
Definition span_char (c : ascii) : bool :=
  negb (Ascii.eqb c "*") && negb (is_line_terminator c).

(** The text of a span. *)
Definition span_text (g : string) : bool := Files.all_chars span_char g.

End RendererView.

(** * Lemmas *)

(** ** The string primitives *)

Section StringFacts.

Lemma split_nl_single s :
  contains_char "010" s = false → split_nl s = [s].
Proof.
  induction s as [|c s IH]; simpl; [done|].
  intros [Hc Hs]%orb_false_iff.
  rewrite Ascii.eqb_sym, Hc, (IH Hs). done.
Qed.

Lemma split_nl_app s rest :
  contains_char "010" s = false →
  split_nl (s +:+ LF +:+ rest) = s :: split_nl rest.
Proof.
  induction s as [|c s IH]; simpl; [done|].
  intros [Hc Hs]%orb_false_iff.
  rewrite Ascii.eqb_sym, Hc.
  change (String.append s (LF +:+ rest)) with (s +:+ LF +:+ rest).
  by rewrite (IH Hs).
Qed.

Lemma replace_spans_no_delim c d op cl s :
  contains_char c s = false →
  replace_spans (String c d) op cl 0 s = s.
Proof.
  induction s as [|c' s IH]; simpl; [done|].
  intros [Hc Hs]%orb_false_iff.
  rewrite Ascii.eqb_sym, Hc. simpl. by rewrite (IH Hs).
Qed.

Lemma match_ol_marker_digit s rest :
  match_ol_marker s = Some rest →
  ∃ c s', s = String c s' ∧ is_digit c = true.
Proof.
  destruct s as [|c s']; [done|]. unfold match_ol_marker.
  destruct (is_digit c) eqn:Hd; [eauto|done].
Qed.

Lemma digit_not_marker c :
  is_digit c = true →
  c ≠ "`"%char ∧ c ≠ "#"%char ∧ c ≠ "*"%char ∧ c ≠ "-"%char.
Proof. intros Hd. repeat split; intros ->; discriminate Hd. Qed.

Lemma string_app_cons x (a b : string) : String x a +:+ b = String x (a +:+ b).
Proof. reflexivity. Qed.

Lemma string_app_assoc (a b c : string) : (a +:+ b) +:+ c = a +:+ b +:+ c.
Proof.
  induction a as [|x a IH]; [done|]. rewrite !string_app_cons. by f_equal.
Qed.

Lemma string_app_empty_r (a : string) : a +:+ "" = a.
Proof.
  induction a as [|x a IH]; [done|]. rewrite string_app_cons. by f_equal.
Qed.

End StringFacts.

(** ** One step of the renderer *)

Section RendererFacts.

Lemma processLine_item st index tag line item :
  isCodeBlock st = false →
  item_of tag line = Some item →
  processLine st index line = open_item tag item st.
Proof.
  intros Hcb Hitem. unfold processLine, item_of, open_item in *.
  rewrite Hcb. destruct tag.
  - destruct (trim line) as [|c1 [|c2 t]] eqn:Ht; simpl in Hitem.
    + done.
    + by rewrite !andb_false_r in Hitem.
    + destruct (Ascii.eqb_spec c1 "*") as [->|H1];
        [|destruct (Ascii.eqb_spec c1 "-") as [->|H2]; [|done]];
        (destruct (Ascii.eqb_spec c2 " ") as [->|H3]; [|done]);
        simpl in *; by simplify_eq.
  - destruct (match_ol_marker_digit _ _ Hitem) as (c & t & Ht & Hd).
    rewrite Ht in *. apply digit_not_marker in Hd as (?&?&?&?).
    cbn [startsWith].
    destruct (Ascii.eqb_spec c "`"), (Ascii.eqb_spec c "#"),
      (Ascii.eqb_spec c "*"), (Ascii.eqb_spec c "-"); try congruence.
    cbn [andb orb]. by rewrite Hitem.
Qed.

Lemma processLine_blank st index line :
  isCodeBlock st = false → trim line = "" →
  processLine st index line = st.
Proof. intros Hcb Ht. unfold processLine. by rewrite Ht, Hcb. Qed.





Lemma processLine_paragraph st index line :
  isCodeBlock st = false → is_paragraph line = true →
  processLine st index line
    = push (p (key_index index) (formatLine line)) (closeList st).
Proof.
  intros Hcb Hp. unfold processLine, is_paragraph in *. rewrite Hcb.
  apply andb_true_iff in Hp as [Hp Htruthy].
  apply andb_true_iff in Hp as [Hp Hol%negb_true_iff].
  apply andb_true_iff in Hp as [Hp Hul%negb_true_iff].
  apply andb_true_iff in Hp as [Hp Hh1%negb_true_iff].
  apply andb_true_iff in Hp as [Hp Hh2%negb_true_iff].
  apply andb_true_iff in Hp as [Hfence%negb_true_iff Hh3%negb_true_iff].
  rewrite Hfence, Hh3, Hh2, Hh1, Hul, Htruthy.
  destruct (match_ol_marker (trim line)) eqn:Hmarker; [|done].
  rewrite bool_decide_eq_false in Hol. destruct Hol. eauto.
Qed.

Lemma processLine_heading st index line level text :
  isCodeBlock st = false → heading_of line = Some (level, text) →
  processLine st index line
    = push (heading level (key_index index) text) (closeList st).
Proof.
  intros Hcb Hh. unfold processLine, heading_of in *. rewrite Hcb.
  destruct (trim line) as [|c t] eqn:Ht; [done|].
  assert (startsWith (String c t) "```" = false) as ->.
  { cbn [startsWith] in *. destruct (Ascii.eqb_spec c "`") as [->|]; [|done].
    by rewrite !andb_false_l in Hh. }
  destruct (startsWith (String c t) "### "); [by simplify_eq|].
  destruct (startsWith (String c t) "## "); [by simplify_eq|].
  destruct (startsWith (String c t) "# "); [by simplify_eq|done].
Qed.

Lemma formatLine_plain line :
  contains_char "*" line = false → formatLine line = line.
Proof.
  intros Hline. unfold formatLine.
  rewrite (replace_spans_no_delim "*" "*" _ _ line Hline).
  apply (replace_spans_no_delim "*" "" _ _ line Hline).
Qed.


(** The first scenario of the specification. *)
Example scenario_heading_paragraph_list :
  FormattedContent
    ("# Title" +:+ LF +:+ "" +:+ LF +:+
     "Some *em* and **strong** text." +:+ LF +:+ "- a" +:+ LF +:+ "- b" +:+ LF)
  = [h1 (key_index 0) "Title";
     p (key_index 2) "Some <em>em</em> and <strong>strong</strong> text.";
     list_el ul (key_list 2) ["a"; "b"]].
Proof. by vm_compute. Qed.

End RendererFacts.

(** ** The topic selection *)

Section TopicFacts.
Import Topics.

Lemma handleUnitSelect_topics s unitName :
  topics (handleUnitSelect s unitName) = [].
Proof. unfold handleUnitSelect. by destruct (unit_is s unitName). Qed.

Lemma handleTopicSelect_cases s topicName :
  (3 < length (newTopics s topicName) ∧ handleTopicSelect s topicName = s)
  ∨ (length (newTopics s topicName) ≤ 3
     ∧ handleTopicSelect s topicName
       = {| unit := None; topics := newTopics s topicName |}).
Proof.
  unfold handleTopicSelect.
  destruct (Nat.ltb_spec 3 (length (newTopics s topicName))); [left|right];
    split; done || lia.
Qed.

Lemma exclusive_unit s unitName : exclusive (handleUnitSelect s unitName).
Proof.
  unfold exclusive, handleUnitSelect.
  destruct (unit_is s unitName); simpl; split; auto with lia.
Qed.

Lemma exclusive_topic s topicName :
  exclusive s → exclusive (handleTopicSelect s topicName).
Proof.
  intros Hs. destruct (handleTopicSelect_cases s topicName) as [[_ ->]|[? ->]];
    [done|]. split; simpl; auto.
Qed.

Lemma reachable_exclusive s : reachable s → exclusive s.
Proof.
  induction 1; auto using exclusive_unit, exclusive_topic.
  all: split; simpl; auto with lia.
Qed.

Lemma exclusive_topic_clears_unit s topicName :
  exclusive s → unit (handleTopicSelect s topicName) = None.
Proof.
  intros [Hlen Hex].
  destruct (handleTopicSelect_cases s topicName) as [[Hgt ->]|[_ ->]];
    [|done].
  destruct Hex as [?|Hnil]; [done|]. exfalso.
  unfold newTopics in Hgt. rewrite Hnil in Hgt. simpl in Hgt. lia.
Qed.

End TopicFacts.

(** ** Sorting and [JSON.stringify] *)

Section QuizFacts.
Import Quiz.

Lemma sort_perm l : sort l ≡ₚ l.
Proof. apply merge_sort_Permutation. Qed.

Lemma sort_sorted l : Sorted String.le (sort l).
Proof. apply (Sorted_merge_sort String.le). Qed.

(** Sorting identifies exactly the arrays with the same elements, each as
    often in one as in the other. *)
Lemma sort_eq_iff a b : sort a = sort b ↔ a ≡ₚ b.
Proof.
  split.
  - intros H. by rewrite <-(sort_perm a), H, sort_perm.
  - intros H. apply (Sorted_unique String.le); auto using sort_sorted.
    by rewrite !sort_perm.
Qed.

(** The result of the engine's sort, whatever its algorithm: the sorted
    arrangement of the elements is unique. *)
Lemma sort_unique l l' : l' ≡ₚ l → Sorted String.le l' → l' = sort l.
Proof.
  intros Hp Hs. apply (Sorted_unique String.le); auto using sort_sorted.
  by rewrite sort_perm.
Qed.

Lemma unquote_quote_char c r :
  unquote_char (quote_char c +:+ r) = Some (c, r).
Proof. destruct c as [[] [] [] [] [] [] [] []]; reflexivity. Qed.

Lemma quote_body_inj s1 : ∀ s2 r1 r2,
  quote_body s1 +:+ String dquote r1 = quote_body s2 +:+ String dquote r2 →
  s1 = s2 ∧ r1 = r2.
Proof.
  induction s1 as [|c1 s1 IH]; intros [|c2 s2] r1 r2; cbn [quote_body];
    rewrite ?string_app_assoc; intros Heq.
  - by injection Heq.
  - apply (f_equal unquote_char) in Heq.
    rewrite unquote_quote_char in Heq. discriminate Heq.
  - apply (f_equal unquote_char) in Heq.
    rewrite unquote_quote_char in Heq. discriminate Heq.
  - apply (f_equal unquote_char) in Heq.
    rewrite !unquote_quote_char in Heq. injection Heq as -> Heq.
    destruct (IH _ _ _ Heq) as [-> ->]. done.
Qed.

Lemma QuoteJSONString_app s r :
  QuoteJSONString s +:+ r = String dquote (quote_body s +:+ String dquote r).
Proof.
  unfold QuoteJSONString. rewrite string_app_cons, string_app_assoc. done.
Qed.

Lemma QuoteJSONString_inj s1 s2 r1 r2 :
  QuoteJSONString s1 +:+ r1 = QuoteJSONString s2 +:+ r2 → s1 = s2 ∧ r1 = r2.
Proof.
  rewrite !QuoteJSONString_app. intros [= Heq]. eapply quote_body_inj, Heq.
Qed.

Lemma join_quoted_cons x l close :
  join "," (map QuoteJSONString (x :: l)) +:+ close
  = QuoteJSONString x +:+ more l close.
Proof. destruct l; [done|]. cbn [map join more]. by rewrite !string_app_assoc. Qed.

Lemma join_quoted_inj l1 : ∀ l2,
  join "," (map QuoteJSONString l1) +:+ "]"
    = join "," (map QuoteJSONString l2) +:+ "]" →
  l1 = l2.
Proof.
  induction l1 as [|x1 l1 IH]; intros [|x2 l2].
  - done.
  - rewrite join_quoted_cons, QuoteJSONString_app. discriminate.
  - rewrite join_quoted_cons, QuoteJSONString_app. discriminate.
  - rewrite !join_quoted_cons. intros [-> Hmore]%QuoteJSONString_inj.
    f_equal. destruct l1 as [|y1 l1], l2 as [|y2 l2]; try done.
    cbn [more] in Hmore. injection Hmore as Hmore. by apply IH.
Qed.

(** Two arrays of strings have the same JSON text only when they are the
    same array. *)
Lemma JSON_stringify_inj l1 l2 :
  JSON_stringify l1 = JSON_stringify l2 → l1 = l2.
Proof.
  unfold JSON_stringify. intros [= Heq]. by apply join_quoted_inj.
Qed.

Lemma same_json_iff q g : same_json q g = true ↔ answer q ≡ₚ g.
Proof.
  unfold same_json. rewrite String.eqb_eq, <-sort_eq_iff.
  split; [apply JSON_stringify_inj|by intros ->].
Qed.

End QuizFacts.

(** ** The grading loop against its description *)

Section Grading.
Import Quiz.

Lemma equal_sorted_iff q g : equal_sorted q g = true ↔ answer q ≡ₚ g.
Proof. unfold equal_sorted. by rewrite bool_decide_eq_true, sort_eq_iff. Qed.

Lemma same_json_equal_sorted q g : same_json q g = equal_sorted q g.
Proof.
  apply eq_true_iff_eq. by rewrite same_json_iff, equal_sorted_iff.
Qed.

Lemma equal_sorted_perm q g g' :
  g ≡ₚ g' → equal_sorted q g = equal_sorted q g'.
Proof.
  intros Hp. apply eq_true_iff_eq. rewrite !equal_sorted_iff. by rewrite Hp.
Qed.

(** Permuting the answers given to each question changes neither count nor
    list. *)
Lemma spec_perm qs : ∀ i ua ua',
  (∀ j, given ua j ≡ₚ given ua' j) →
  score_spec i qs ua = score_spec i qs ua'
  ∧ incorrect_spec i qs ua = incorrect_spec i qs ua'.
Proof.
  induction qs as [|q qs IH]; intros i ua ua' Hp; [done|].
  cbn [score_spec incorrect_spec].
  destruct (IH (S i) ua ua' Hp) as [-> ->].
  by rewrite (equal_sorted_perm q _ _ (Hp i)).
Qed.

Lemma given_sort_given ua i j : given (sort_given ua i) j ≡ₚ given ua j.
Proof.
  unfold sort_given, given. destruct (ua !! i) as [g|] eqn:Hi; [|done].
  destruct (decide (i = j)) as [->|Hne].
  - rewrite lookup_insert_eq, Hi. simpl. apply sort_perm.
  - by rewrite lookup_insert_ne.
Qed.

Lemma forEach_spec qs : ∀ i ua sc inc,
  let g := forEachQuestion i qs ua sc inc in
  g_questions g = map (λ q, set_answer q (sort (answer q))) qs
  ∧ score g = sc + score_spec i qs ua
  ∧ incorrectQuestions g = inc ++ incorrect_spec i qs ua.
Proof.
  induction qs as [|q qs IH]; intros i ua sc inc; cbn zeta.
  - cbn. by rewrite Nat.add_0_r, app_nil_r.
  - cbn [forEachQuestion score_spec incorrect_spec map g_questions score
           incorrectQuestions].
    fold (sort_given ua i). fold (same_json q (given ua i)).
    rewrite same_json_equal_sorted.
    destruct (spec_perm qs (S i) _ _ (given_sort_given ua i)) as [Hs Hi].
    destruct (equal_sorted q (given ua i)).
    + destruct (IH (S i) (sort_given ua i) (S sc) inc) as (-> & -> & ->).
      rewrite Hs, Hi. split; [done|]. split; [lia|done].
    + destruct (IH (S i) (sort_given ua i) sc (inc ++ [i])) as (-> & -> & ->).
      rewrite Hs, Hi, <-app_assoc. done.
Qed.

Lemma score_incorrect_total qs : ∀ i ua,
  score_spec i qs ua + length (incorrect_spec i qs ua) = length qs.
Proof.
  induction qs as [|q qs IH]; intros i ua; [done|].
  cbn [score_spec incorrect_spec]. rewrite length_app.
  specialize (IH (S i) ua). destruct (equal_sorted _ _); simpl; lia.
Qed.

(** The incorrect list names exactly the unequal questions. *)
Lemma incorrect_spec_elem qs : ∀ i ua j,
  j ∈ incorrect_spec i qs ua ↔
  ∃ q, qs !! (j - i) = Some q ∧ i ≤ j ∧ ¬ answer q ≡ₚ given ua j.
Proof.
  induction qs as [|q qs IH]; intros i ua j; cbn [incorrect_spec].
  - split; [by intros ?%elem_of_nil|by intros (?&?&_)].
  - rewrite elem_of_app, IH. split.
    + intros [Hj|(q' & Hq' & Hle & Hne)].
      * destruct (equal_sorted q (given ua i)) eqn:Heq;
          [by apply elem_of_nil in Hj|].
        apply list_elem_of_singleton in Hj as ->. exists q.
        rewrite Nat.sub_diag. split; [done|]. split; [done|].
        by rewrite <-equal_sorted_iff, Heq.
      * exists q'. replace (j - i) with (S (j - S i)) by lia. auto with lia.
    + intros (q' & Hq' & Hle & Hne).
      destruct (decide (j = i)) as [->|Hji].
      * left. rewrite Nat.sub_diag in Hq'. simplify_eq/=.
        destruct (equal_sorted q' (given ua i)) eqn:Heq.
        -- by apply equal_sorted_iff in Heq.
        -- by apply list_elem_of_singleton.
      * right. exists q'. replace (j - i) with (S (j - S i)) in Hq' by lia.
        auto with lia.
Qed.

(** The incorrect list is in question order. *)
Lemma incorrect_spec_sorted qs : ∀ i ua,
  StronglySorted lt (incorrect_spec i qs ua)
  ∧ Forall (λ j, i ≤ j) (incorrect_spec i qs ua).
Proof.
  induction qs as [|q qs IH]; intros i ua; cbn [incorrect_spec].
  - split; constructor.
  - destruct (IH (S i) ua) as [Hs Hf].
    destruct (equal_sorted _ _); simpl.
    + split; [done|]. eapply Forall_impl; [done|]. simpl; lia.
    + split; constructor; try done.
      eapply Forall_impl; [done|]. simpl; lia.
Qed.

End Grading.

(** ** [handleSubmit] in every run, and once [ai] is bound to a client *)

Section QuizRunnerFacts.
Import Quiz QuizRunner.

Lemma handleSubmit_results ai subject sel quiz st outcome :
  let g := grade quiz (userAnswers st) in
  let run := handleSubmit ai subject sel quiz st outcome in
  results (state run) = Some (score g, incorrectQuestions g)
  ∧ submitted (state run) = true.
Proof.
  unfold handleSubmit. cbn zeta.
  destruct (incorrectQuestions _) eqn:E;
    [|destruct ai as [|[]]; [| destruct outcome|]];
    by rewrite <-E.
Qed.

Lemma handleSubmit_bound subject sel quiz st outcome :
  let g := grade quiz (userAnswers st) in
  let run := handleSubmit (bound true) subject sel quiz st outcome in
  incorrectQuestions g ≠ [] →
  (outcome ≠ no_client → length (requests run) = 1)
  ∧ (outcome = rejects ∨ outcome = no_client →
     personalizedSuggestions (state run) = fallback)
  ∧ completion run = fulfilled.
Proof.
  unfold handleSubmit. cbn zeta.
  destruct (incorrectQuestions _); [done|]. intros _.
  destruct outcome; repeat split; try done; intros [|]; done.
Qed.

End QuizRunnerFacts.

(** ** The flashcard test *)

Section FlashcardFacts.
Import Flashcards.

Local Open Scope Z_scope.

(** Rounding to the 53 leading bits adds at most the [2^53]-th part. *)
Lemma round_half_even_error n d :
  0 < d → 2 ^ (d + 52) ≤ n →
  0 ≤ round_half_even n d
  ∧ round_half_even n d * 2 ^ d * 2 ^ 53 ≤ n * (2 ^ 53 + 1).
Proof.
  intros Hd Hn. unfold round_half_even.
  assert (0 < 2 ^ (d - 1)) as Hhalf by (apply Z.pow_pos_nonneg; lia).
  assert (2 ^ d = 2 * 2 ^ (d - 1)) as Hpow.
  { rewrite <-Z.pow_succ_r by lia. f_equal. lia. }
  assert (2 ^ (d + 52) = 2 ^ (d - 1) * 2 ^ 53) as Hbig.
  { rewrite <-Z.pow_add_r by lia. f_equal. lia. }
  assert (0 < n) as Hpos by lia.
  pose proof (Z.div_mod n (2 ^ d)) as Hdm.
  pose proof (Z.mod_pos_bound n (2 ^ d)) as Hmod.
  assert (0 ≤ n / 2 ^ d) as Hq by (apply Z.div_pos; lia).
  set (q := n / 2 ^ d) in *. set (r := n mod 2 ^ d) in *.
  set (h := 2 ^ (d - 1)) in *. rewrite Hpow in *.
  assert (n = 2 * h * q + r) as Hn' by lia.
  assert (0 ≤ r < 2 * h) as Hr by lia.
  clear Hdm Hmod.
  assert (q * (2 * h) * 2 ^ 53 ≤ n * (2 ^ 53 + 1)) as Hdown by nia.
  assert (h ≤ r → (q + 1) * (2 * h) * 2 ^ 53 ≤ n * (2 ^ 53 + 1)) as Hup.
  { intros Hle. rewrite Hbig in Hn. nia. }
  destruct (Z.ltb_spec r h); [split; [lia|done]|].
  destruct (Z.ltb_spec h r); [split; [lia|auto]|].
  destruct (Z.even q); split; auto with lia.
Qed.

Lemma random_times_half_error m len :
  0 ≤ m → 0 ≤ len →
  0 ≤ random_times_half m len
  ∧ random_times_half m len * 2 ^ 53 ≤ m * len * (2 ^ 53 + 1).
Proof.
  intros Hm Hlen. unfold random_times_half, significand_bits.
  assert (0 ≤ m * len) as Hn by (apply Z.mul_nonneg_nonneg; lia).
  set (n := m * len) in *.
  destruct (Z.leb_spec (Z.log2 n + 1 - 53) 0) as [_|Hd]; [lia|].
  assert (0 < n) as Hpos.
  { destruct (Z.eq_dec n 0) as [H0|]; [|lia]. rewrite H0 in Hd. done. }
  destruct (round_half_even_error n (Z.log2 n + 1 - 53)) as [H0 He];
    [lia| |].
  { replace (Z.log2 n + 1 - 53 + 52) with (Z.log2 n) by lia.
    by apply Z.log2_spec. }
  split; [|done]. apply Z.mul_nonneg_nonneg; [done|].
  apply Z.pow_nonneg; lia.
Qed.

(** The rounded product stays below [len / 2]: the draw is at most
    [1 - 2^-53]. *)
Lemma random_times_half_lt m len :
  is_draw m → 0 < len → random_times_half m len < 2 ^ 53 * len.
Proof.
  intros [Hm0 Hm] Hlen.
  destruct (random_times_half_error m len) as [_ He]; [lia..|].
  assert (m * len ≤ (2 ^ 53 - 1) * len) as Hn
    by (apply Z.mul_le_mono_nonneg_r; lia).
  lia.
Qed.

Local Close Scope Z_scope.

Lemma insertIndex_range len m :
  is_draw m → 1 ≤ len → len / 2 ≤ insertIndex len m < len.
Proof.
  intros Hm Hlen. unfold insertIndex.
  pose proof (random_times_half_lt m (Z.of_nat len) Hm ltac:(lia)) as Hlt.
  destruct (random_times_half_error m (Z.of_nat len)) as [H0 _];
    [destruct Hm; lia|lia|].
  assert (0 ≤ random_times_half m (Z.of_nat len) / 2 ^ 54)%Z as Hfloor
    by (apply Z.div_pos; lia).
  assert (random_times_half m (Z.of_nat len) / 2 ^ 54
          < Z.of_nat len - Z.of_nat len / 2)%Z as Hup.
  { apply Z.div_lt_upper_bound; [lia|].
    pose proof (Z.div_mod (Z.of_nat len) 2 ltac:(lia)).
    pose proof (Z.mod_pos_bound (Z.of_nat len) 2 ltac:(lia)). lia. }
  assert (Z.of_nat (len / 2) = Z.of_nat len / 2)%Z as Hhalf
    by (rewrite Nat2Z.inj_div; done).
  lia.
Qed.

Lemma insertIndex_empty m : insertIndex 0 m = 0.
Proof. unfold insertIndex, random_times_half. by rewrite Z.mul_0_r. Qed.

(** *** The shuffle permutes *)

Lemma insert_by_perm {A} oracle (x : A) l : ∀ k,
  fst (insert_by oracle x l k) ≡ₚ x :: l.
Proof.
  induction l as [|y l IH]; intros k; simpl; [done|].
  destruct (before (oracle k)); [done|].
  specialize (IH (S k)). destruct (insert_by oracle x l (S k)) as [r k'].
  simpl in *. rewrite IH. apply perm_swap.
Qed.

Lemma sort_by_perm {A} oracle (l : list A) : ∀ k,
  fst (sort_by oracle l k) ≡ₚ l.
Proof.
  induction l as [|x l IH]; intros k; simpl; [done|].
  specialize (IH k). destruct (sort_by oracle l k) as [s k'].
  simpl in IH. by rewrite insert_by_perm, IH.
Qed.

Lemma shuffle_perm {A} oracle (l : list A) : shuffle oracle l ≡ₚ l.
Proof. apply sort_by_perm. Qed.

(** *** One answer *)

Lemma splice_in_perm i x l : splice_in i x l ≡ₚ x :: l.
Proof.
  unfold splice_in. by rewrite <-Permutation_middle, take_drop.
Qed.

Lemma splice_in_lookup i x l :
  i ≤ length l → splice_in i x l !! i = Some x.
Proof.
  intros Hi. unfold splice_in.
  rewrite lookup_app_r by (rewrite length_take; lia).
  rewrite length_take, Nat.min_l, Nat.sub_diag by lia. done.
Qed.

Lemma handleAnswer_perm st knewIt m card :
  cardsToTest st !! currentIndex st = Some card →
  all_cards (handleAnswer st knewIt m) ≡ₚ all_cards st.
Proof.
  intros Hcard. unfold all_cards, handleAnswer, splice_out.
  rewrite Hcard. cbn [default cardsToTest masteredCards].
  pose proof (delete_Permutation _ _ _ Hcard) as Hdel.
  set (rest := delete _ _) in *. rewrite Hdel.
  destruct knewIt.
  - by rewrite app_assoc, <-Permutation_cons_append.
  - by rewrite splice_in_perm.
Qed.

Lemma handleAnswer_index st knewIt m :
  cardsToTest (handleAnswer st knewIt m) ≠ [] →
  currentIndex (handleAnswer st knewIt m)
    < length (cardsToTest (handleAnswer st knewIt m)).
Proof.
  unfold handleAnswer, splice_out. cbn.
  set (cards := if knewIt then _ else _). intros Hne.
  destruct (Nat.leb_spec (length cards) (currentIndex st)); [|done].
  destruct cards; [done|simpl; lia].
Qed.

(** *** Every state of the test *)

Lemma startTest_partitioned flashcards oracle :
  partitioned flashcards (startTest flashcards oracle).
Proof.
  split.
  - unfold all_cards. simpl. by rewrite app_nil_r, shuffle_perm.
  - simpl. intros Hne. destruct (shuffle _ _); [done|simpl; lia].
Qed.

Lemma step_partitioned flashcards st st' :
  step flashcards st st' →
  st = browsing ∨ partitioned flashcards st →
  partitioned flashcards st'.
Proof.
  intros Hstep Hst. destruct Hstep as [st oracle Ha|st Ha Hne Hs
    |st knewIt m Ha Hne Hs Hm|st Ha He].
  - apply startTest_partitioned.
  - destruct Hst as [->|Hp]; [done|]. apply Hp.
  - destruct Hst as [->|[Hp Hi]]; [done|].
    destruct (lookup_lt_is_Some_2 _ _ (Hi Hne)) as [card Hcard].
    split; [|apply handleAnswer_index].
    by rewrite (handleAnswer_perm _ _ _ _ Hcard).
  - destruct Hst as [->|Hp]; [done|]. apply Hp.
Qed.

Lemma reachable_partitioned flashcards st :
  reached flashcards st →
  st = browsing ∨ partitioned flashcards st.
Proof.
  unfold reached. revert st.
  apply (rtc_ind_r (R := step flashcards)
           (λ st, st = browsing ∨ partitioned flashcards st)); [by left|].
  intros y z _ Hstep IH. right. by eapply step_partitioned.
Qed.

Lemma one_known_reachable : reached [card_a; card_b; card_c] one_known.
Proof.
  unfold reached, one_known.
  eapply rtc_l; [by apply (step_start _ browsing (λ _, 0%Z))|].
  eapply rtc_l; [by apply step_reveal|].
  eapply rtc_l; [|apply rtc_refl].
  apply step_answer; done || (unfold is_draw; lia).
Defined.

(** The fourth scenario of the specification: of two cards, the one marked
    as needing review leaves one card behind and goes back in front of it,
    whatever the draw. *)
Example scenario_two_card_deck m :
  is_draw m →
  cardsToTest
    (handleAnswer (reveal (startTest [card_a; card_b] (λ _, 0%Z))) false m)
  = [Some card_a; Some card_b].
Proof.
  intros Hm. pose proof (insertIndex_range 1 m Hm ltac:(lia)) as Hi.
  change (splice_in (insertIndex 1 m) (Some card_a) [Some card_b]
          = [Some card_a; Some card_b]).
  by replace (insertIndex 1 m) with 0 by lia.
Qed.

End FlashcardFacts.

(** * The claims *)

(** ** The renderer *)

Section RendererClaims.

(** C5, as stated, fails: an empty line between two bullet items does not
    close the list; the rendering is one list block of two items, not two
    list blocks. *)
Lemma blank_line_merges_lists_counterexample :
  FormattedContent ("- a" +:+ LF +:+ "" +:+ LF +:+ "- b")
    = [list_el ul (key_list 0) ["a"; "b"]]
  ∧ count_lists (FormattedContent ("- a" +:+ LF +:+ "" +:+ LF +:+ "- b")) ≠ 2.
Proof. split; [by vm_compute|]. vm_compute. lia. Qed.

(** C5, amended: outside a code fence, a line whose trimmed form is empty
    produces no block node and changes nothing: an open bullet or numbered
    list stays open.  So an item line, an empty line and an item line of the
    same list type render as one list block holding both items. *)
Theorem blank_line_keeps_list_open
    (st : State) (index : nat) (tag : ListTag) (l1 e l2 i1 i2 : string) :
  isCodeBlock st = false →
  trim e = "" →
  item_of tag l1 = Some i1 →
  item_of tag l2 = Some i2 →
  contains_char "010" l1 = false →
  contains_char "010" e = false →
  contains_char "010" l2 = false →
  processLine st index e = st
  ∧ FormattedContent (l1 +:+ LF +:+ e +:+ LF +:+ l2)
      = [list_el tag (key_list 0) [formatLine i1; formatLine i2]]
  ∧ count_lists (FormattedContent (l1 +:+ LF +:+ e +:+ LF +:+ l2)) = 1.
Proof.
  intros Hcb He H1 H2 N1 Ne N2.
  assert (FormattedContent (l1 +:+ LF +:+ e +:+ LF +:+ l2)
          = [list_el tag (key_list 0) [formatLine i1; formatLine i2]]) as Hr.
  { unfold FormattedContent, render_lines.
    rewrite (split_nl_app _ _ N1), (split_nl_app _ _ Ne), (split_nl_single _ N2).
    cbn [forEachLine].
    rewrite (processLine_item init 0 tag l1 i1 eq_refl H1).
    assert (isCodeBlock (open_item tag i1 init) = false) as Hopen
      by (by destruct tag).
    rewrite (processLine_blank _ _ _ Hopen He).
    rewrite (processLine_item _ 2 tag l2 i2 Hopen H2).
    by destruct tag. }
  split; [by apply processLine_blank|]. split; [done|]. by rewrite Hr.
Qed.

Lemma blank_line_keeps_list_open_witness :
  processLine init 1 "  " = init
  ∧ FormattedContent ("1. x" +:+ LF +:+ "  " +:+ LF +:+ "2. *y*")
      = [list_el ol (key_list 0) [formatLine "x"; formatLine "*y*"]]
  ∧ count_lists (FormattedContent ("1. x" +:+ LF +:+ "  " +:+ LF +:+ "2. *y*")) = 1.
Proof.
  apply (blank_line_keeps_list_open init 1 ol "1. x" "  " "2. *y*" "x" "*y*");
    reflexivity.
Defined.



(** C4, as stated, fails: nothing is escaped.  A paragraph and a list item
    whose text holds a tag carry it as it is into the inner HTML of their
    element, and the two passes are not kept apart: an emphasis span can
    start inside a strong span and end outside of it. *)
Lemma inline_formatting_counterexample :
  FormattedContent "<script>alert(1)</script>"
    = [p (key_index 0) "<script>alert(1)</script>"]
  ∧ FormattedContent "- <img src=x onerror=alert(1)>"
      = [list_el ul (key_list 0) ["<img src=x onerror=alert(1)>"]]
  ∧ contains_char "<" (formatLine "<script>alert(1)</script>") = true
  ∧ formatLine "***a***" = "<strong><em>a</strong></em>".
Proof. repeat split; by vm_compute. Qed.

(** C4, amended: [formatLine] runs the pass for double-asterisk spans and
    then, on its result, the pass for single-asterisk spans, and escapes
    nothing: a text without an asterisk comes out as it went in.  The result
    is the inner HTML of a paragraph or of a list item, so markup in such a
    line reaches the page as markup.  A heading gets no inline formatting:
    its text is a text child, which React escapes. *)
Theorem inline_formatting_unescaped
    (line item text : string) (tag : ListTag) (level : nat) :
  contains_char "010" line = false →
  (∀ l, formatLine l =
        replace_spans "*" "<em>" "</em>" 0
          (replace_spans "**" "<strong>" "</strong>" 0 l))
  ∧ (contains_char "*" line = false → formatLine line = line)
  ∧ (is_paragraph line = true → contains_char "*" line = false →
     FormattedContent line = [p (key_index 0) line])
  ∧ (item_of tag line = Some item → contains_char "*" item = false →
     FormattedContent line = [list_el tag (key_list 0) [item]])
  ∧ (heading_of line = Some (level, text) →
     FormattedContent line = [heading level (key_index 0) text]).
Proof.
  intros Hnl. unfold FormattedContent, render_lines.
  rewrite (split_nl_single _ Hnl). cbn [forEachLine].
  split; [done|]. split; [apply formatLine_plain|]. split; [|split].
  - intros Hp Hplain.
    rewrite (processLine_paragraph init 0 line eq_refl Hp).
    by rewrite (formatLine_plain _ Hplain).
  - intros Hitem Hplain.
    rewrite (processLine_item init 0 tag line item eq_refl Hitem).
    destruct tag; cbn; by rewrite (formatLine_plain _ Hplain).
  - intros Hh. rewrite (processLine_heading init 0 line _ _ eq_refl Hh).
    by destruct level as [|[|[|[|?]]]].
Qed.

Lemma inline_formatting_unescaped_witness :
  formatLine "a <b onclick=x>b</b>" = "a <b onclick=x>b</b>"
  ∧ FormattedContent "a <b onclick=x>b</b>"
      = [p (key_index 0) "a <b onclick=x>b</b>"]
  ∧ FormattedContent "## <i>t</i>" = [h2 (key_index 0) "<i>t</i>"].
Proof.
  destruct (inline_formatting_unescaped "a <b onclick=x>b</b>" "" "" ul 0
              eq_refl) as (_ & H1 & H2 & _).
  destruct (inline_formatting_unescaped "## <i>t</i>" "" "<i>t</i>" ul 2
              eq_refl) as (_ & _ & _ & _ & H3).
  split; [by apply H1|]. split; [by apply H2|]. by apply H3.
Defined.

End RendererClaims.

(** ** The topic selection *)

Section TopicClaims.
Import Topics.

(** C7: in every selection state, selecting a unit leaves no topic
    selected; selecting a topic is either turned down, which leaves the
    selection as it is, or leaves no unit selected; and a fourth topic on top
    of three selected ones is turned down.  In every selection the handlers
    can reach there is never a unit together with topics, so that selecting a
    topic always leaves no unit selected, and there are never more than three
    topics. *)
Theorem topic_selection_exclusive
    (s : TopicSelection) (unitName topicName : string) :
  reachable s →
  (∀ s0, topics (handleUnitSelect s0 unitName) = [])
  ∧ (∀ s0, handleTopicSelect s0 topicName = s0
           ∨ unit (handleTopicSelect s0 topicName) = None)
  ∧ (∀ s0, length (topics s0) = 3 → includes (topics s0) topicName = false →
           handleTopicSelect s0 topicName = s0)
  ∧ unit (handleTopicSelect s topicName) = None
  ∧ (unit s = None ∨ topics s = [])
  ∧ length (topics s) ≤ 3
  ∧ length (topics (handleTopicSelect s topicName)) ≤ 3.
Proof.
  intros Hs. pose proof (reachable_exclusive s Hs) as Hex.
  split; [intros s0; apply handleUnitSelect_topics|].
  split.
  { intros s0.
    destruct (handleTopicSelect_cases s0 topicName) as [[_ ->]|[_ ->]]; auto. }
  split.
  { intros s0 Hlen Hnew. unfold handleTopicSelect, newTopics.
    rewrite Hnew, length_app, Hlen. done. }
  split; [by apply exclusive_topic_clears_unit|].
  split; [apply Hex|]. split; [apply Hex|by apply exclusive_topic].
Qed.

Lemma topic_selection_exclusive_witness :
  let s := handleTopicSelect
             (handleTopicSelect (handleTopicSelect
                (handleUnitSelect empty "Unit 1") "a") "b") "c" in
  topics s = ["a"; "b"; "c"]
  ∧ topics (handleUnitSelect s "Unit 2") = []
  ∧ unit (handleTopicSelect s "d") = None
  ∧ handleTopicSelect s "d" = s.
Proof.
  intros s.
  assert (reachable s) as Hs by (repeat constructor).
  destruct (topic_selection_exclusive s "Unit 2" "d" Hs)
    as (H1 & _ & H3 & H4 & _).
  split; [reflexivity|]. split; [exact (H1 s)|]. split; [exact H4|].
  apply H3; reflexivity.
Defined.

End TopicClaims.

(** ** The quiz *)

Section QuizClaims.
Import Quiz QuizRunner.

(** C2: each question, in order, is graded by sorting the canonical
    answers and the user's answers (none given: the empty array) and
    comparing the two for equality: questions are equal exactly when the two
    arrays hold the same strings, whatever their order, with no partial
    credit.  The score counts the equal questions, the incorrect list holds
    the unequal ones in question order, and permuting the answers a user
    gave changes neither.  [paris] against [Paris] scores 0 and is
    listed; [Paris] against [Paris] scores 1. *)
Theorem quiz_grading
    (quiz : Quiz) (ua ua' : gmap nat (list string)) :
  (∀ i, given ua i ≡ₚ given ua' i) →
  let g := grade quiz ua in
  score g = score_spec 0 (questions quiz) ua
  ∧ incorrectQuestions g = incorrect_spec 0 (questions quiz) ua
  ∧ score g + length (incorrectQuestions g) = length (questions quiz)
  ∧ StronglySorted lt (incorrectQuestions g)
  ∧ (∀ i q, questions quiz !! i = Some q →
       (same_json q (given ua i) = true ↔ answer q ≡ₚ given ua i)
       ∧ (i ∈ incorrectQuestions g ↔ ¬ answer q ≡ₚ given ua i))
  ∧ score (grade quiz ua') = score g
  ∧ incorrectQuestions (grade quiz ua') = incorrectQuestions g
  ∧ (let g := grade paris_quiz {[ 0 := ["paris"] ]} in
     score g = 0 ∧ incorrectQuestions g = [0]
     ∧ deref (g_questions g) (incorrectQuestions g) = questions paris_quiz)
  ∧ (let g := grade paris_quiz {[ 0 := ["Paris"] ]} in
     score g = 1 ∧ incorrectQuestions g = []).
Proof.
  intros Hp g.
  destruct (forEach_spec (questions quiz) 0 ua 0 []) as (_ & Hs & Hi).
  destruct (forEach_spec (questions quiz) 0 ua' 0 []) as (_ & Hs' & Hi').
  destruct (spec_perm (questions quiz) 0 ua ua' Hp) as [Es Ei].
  fold (grade quiz ua) in Hs, Hi. fold (grade quiz ua') in Hs', Hi'.
  fold g in Hs, Hi. simpl in Hs, Hi, Hs', Hi'.
  split; [done|]. split; [done|].
  split; [rewrite Hs, Hi; apply score_incorrect_total|].
  split; [rewrite Hi; apply incorrect_spec_sorted|].
  split.
  { intros i q Hq. split; [apply same_json_iff|]. rewrite Hi. split.
    - intros (q' & Hq' & _ & Hne)%incorrect_spec_elem.
      rewrite Nat.sub_0_r in Hq'. by simplify_eq.
    - intros Hne. apply incorrect_spec_elem. exists q.
      rewrite Nat.sub_0_r. auto with lia. }
  split; [by rewrite Hs', Hs, Es|].
  split; [by rewrite Hi', Hi, Ei|].
  split; by vm_compute.
Qed.

Lemma quiz_grading_witness :
  let quiz := {| title := "t";
                 questions := [ {| question := "q1"; options := Some ["a"; "b"; "c"];
                                   answer := ["b"; "a"]; type := mcq_multiple;
                                   explanation := "e1" |};
                                {| question := "q2"; options := None;
                                   answer := ["x"]; type := subjective_short;
                                   explanation := "e2" |} ];
                 swotAnalysis := "s" |} in
  score (grade quiz {[ 0 := ["a"; "b"] ]}) = 1
  ∧ incorrectQuestions (grade quiz {[ 0 := ["a"; "b"] ]}) = [1]
  ∧ score (grade quiz {[ 0 := ["b"; "a"] ]})
    = score (grade quiz {[ 0 := ["a"; "b"] ]}).
Proof.
  intros quiz.
  assert (∀ i, given ({[ 0 := ["a"; "b"] ]} : gmap nat (list string)) i
               ≡ₚ given ({[ 0 := ["b"; "a"] ]} : gmap nat (list string)) i)
    as Hp.
  { intros [|i]; [apply perm_swap|].
    unfold given. by rewrite !lookup_singleton_ne. }
  destruct (quiz_grading quiz _ _ Hp) as (Hs & Hi & _ & _ & _ & Hs' & _).
  split; [rewrite Hs; reflexivity|].
  split; [rewrite Hi; reflexivity|exact Hs'].
Defined.

(** C8 fails on the code: grading sorts the [answer] array of every
    question of the quiz in place.  A question whose answers are not in
    sorted order has them in another order after grading; everything else
    of the quiz is as before. *)
Theorem grading_sorts_answers_in_place :
  let q := {| question := "Pick two"; options := Some ["a"; "b"; "c"];
              answer := ["b"; "a"]; type := mcq_multiple;
              explanation := "" |} in
  let quiz := {| title := "t"; questions := [q]; swotAnalysis := "s" |} in
  quiz_after quiz (grade quiz ∅) ≠ quiz
  ∧ map answer (questions (quiz_after quiz (grade quiz ∅))) = [["a"; "b"]]
  ∧ (∀ (quiz : Quiz.Quiz) ua,
       title (quiz_after quiz (grade quiz ua)) = title quiz
       ∧ swotAnalysis (quiz_after quiz (grade quiz ua)) = swotAnalysis quiz
       ∧ questions (quiz_after quiz (grade quiz ua))
         = map (λ q, set_answer q (sort (answer q))) (questions quiz)).
Proof.
  intros q quiz. split; [|split].
  - intros Heq. apply (f_equal (λ z, map answer (questions z))) in Heq.
    vm_compute in Heq. discriminate Heq.
  - by vm_compute.
  - intros quiz' ua. repeat split.
    apply (forEach_spec (questions quiz') 0 ua 0 []).
Qed.

(** C9 fails on the code: with a wrong answer the handler reads the
    identifier [ai], which nothing in the file binds; the read throws, no
    request for suggestions is issued and the suggestions stay empty
    instead of becoming the fixed message.  So it is for every quiz with a
    question answered wrongly.  The score and the incorrect list are
    committed before the read and stay as computed. *)
Theorem suggestions_request_not_issued :
  (let run := handleSubmit unbound "Geography" Topics.empty paris_quiz
                {| userAnswers := {[ 0 := ["paris"] ]}; submitted := false;
                   results := None; personalizedSuggestions := "";
                   isLoadingSuggestions := false |} rejects in
   results (state run) = Some (0, [0])
   ∧ submitted (state run) = true
   ∧ requests run = []
   ∧ completion run = ReferenceError "ai"
   ∧ personalizedSuggestions (state run) = ""
   ∧ personalizedSuggestions (state run) ≠ fallback)
  ∧ (∀ subject sel quiz st outcome,
       let g := grade quiz (userAnswers st) in
       let run := handleSubmit unbound subject sel quiz st outcome in
       incorrectQuestions g ≠ [] →
       requests run = []
       ∧ completion run = ReferenceError "ai"
       ∧ personalizedSuggestions (state run) = personalizedSuggestions st
       ∧ results (state run) = Some (score g, incorrectQuestions g)).
Proof.
  split; [repeat split; by vm_compute|].
  intros subject sel quiz st outcome. unfold handleSubmit. cbn zeta.
  destruct (incorrectQuestions _) eqn:E; [done|]. intros _.
  repeat split. by rewrite <-E.
Qed.

End QuizClaims.

(** ** The flashcard test *)

Section FlashcardClaims.
Import Flashcards.

(** C1: starting a test makes the cards to test a permutation of the whole
    deck, with no card mastered and the index at 0; in every state of a
    running test, and after every answer given in it, the cards to test
    together with the mastered cards are a permutation of the deck: their
    numbers add up to the size of the deck, no card is lost and none is
    there twice over. *)
Theorem flashcard_partition
    (flashcards : list Flashcard) (oracle : nat → Z)
    (st : TestState) (knewIt : bool) (m : Z) :
  reached flashcards st →
  active st = true →
  (cardsToTest (startTest flashcards oracle) ≡ₚ Some <$> flashcards
   ∧ masteredCards (startTest flashcards oracle) = []
   ∧ currentIndex (startTest flashcards oracle) = 0)
  ∧ cardsToTest st ++ masteredCards st ≡ₚ Some <$> flashcards
  ∧ length (cardsToTest st) + length (masteredCards st) = length flashcards
  ∧ (NoDup flashcards → NoDup (cardsToTest st ++ masteredCards st))
  ∧ (cardsToTest st ≠ [] →
     let st' := handleAnswer st knewIt m in
     cardsToTest st' ++ masteredCards st' ≡ₚ Some <$> flashcards
     ∧ length (cardsToTest st') + length (masteredCards st')
       = length flashcards).
Proof.
  intros Hr Ha.
  destruct (reachable_partitioned _ _ Hr) as [->|[Hp Hi]]; [done|].
  unfold all_cards in Hp.
  split; [|split; [done|split; [|split]]].
  - split; [apply shuffle_perm|done].
  - by rewrite <-length_app, Hp, length_fmap.
  - intros Hnd. rewrite Hp. apply (NoDup_fmap_2 _), Hnd.
  - intros Hne. cbn zeta.
    destruct (lookup_lt_is_Some_2 _ _ (Hi Hne)) as [card Hcard].
    pose proof (handleAnswer_perm st knewIt m card Hcard) as Hp'.
    unfold all_cards in Hp'. rewrite Hp in Hp'. split; [done|].
    by rewrite <-length_app, Hp', length_fmap.
Qed.

Lemma flashcard_partition_witness :
  cardsToTest one_known ++ masteredCards one_known
    ≡ₚ Some <$> [card_a; card_b; card_c]
  ∧ length (cardsToTest one_known) + length (masteredCards one_known) = 3
  ∧ length (cardsToTest (handleAnswer one_known false 5))
    + length (masteredCards (handleAnswer one_known false 5)) = 3.
Proof.
  destruct (flashcard_partition [card_a; card_b; card_c] (λ _, 0%Z)
              one_known false 5 one_known_reachable eq_refl)
    as (_ & Hp & Hl & _ & Hstep).
  split; [exact Hp|]. split; [exact Hl|].
  apply Hstep. discriminate.
Defined.

(** C3, as stated, fails.  With no card left after the removal the card is
    put back at index 0, and no index lies in the empty range from 0 to 0.
    And the index is not uniform: with three cards left the range holds the
    indices 1 and 2, yet every draw up to five eighths gives index 1. *)
Lemma reinsertion_counterexample :
  ¬ (0 / 2 ≤ insertIndex 0 0 < 0)
  ∧ cardsToTest
      (handleAnswer
         {| active := true; cardsToTest := [Some card_a];
            masteredCards := []; currentIndex := 0; showAnswer := true |}
         false 0)
    = [Some card_a]
  ∧ (∀ m, (0 ≤ m)%Z → (8 * m ≤ 5 * 2 ^ 53)%Z → insertIndex 3 m = 1)
  ∧ insertIndex 3 (2 ^ 53 - 1) = 2.
Proof.
  split; [lia|]. split; [by vm_compute|]. split; [|by vm_compute].
  intros m Hm Hle. unfold insertIndex.
  destruct (random_times_half_error m 3) as [H0 He]; [lia..|].
  rewrite (Z.div_small (random_times_half m 3)) by lia. done.
Qed.

(** C3, amended: a card marked as needing review is taken out of the cards
    to test, which leaves [len] cards, and put back at the index
    [floor(len/2) + floor(r * len/2)] for the draw [r]; the mastered cards
    stay as they are.  With [len >= 1] that index lies from [floor(len/2)]
    up to, and not including, [len]: in the later half of the remaining
    cards; with no card left it is 0.  Whenever [len >= 2] the index is
    not 0.  Nothing is said of how the index is distributed. *)
Theorem needs_review_reinsertion
    (st : TestState) (m : Z) (card : Slot) :
  is_draw m →
  cardsToTest st !! currentIndex st = Some card →
  let rest := delete (currentIndex st) (cardsToTest st) in
  let len := length rest in
  let i := insertIndex len m in
  S len = length (cardsToTest st)
  ∧ cardsToTest (handleAnswer st false m) = take i rest ++ card :: drop i rest
  ∧ cardsToTest (handleAnswer st false m) !! i = Some card
  ∧ masteredCards (handleAnswer st false m) = masteredCards st
  ∧ (len = 0 → i = 0)
  ∧ (1 ≤ len → len / 2 ≤ i < len)
  ∧ (2 ≤ len → i ≠ 0).
Proof.
  intros Hm Hcard rest len i.
  assert (len = 0 → i = 0) as H0.
  { intros Hz. subst i. rewrite Hz. apply insertIndex_empty. }
  assert (1 ≤ len → len / 2 ≤ i < len) as H1
    by (intros; by apply insertIndex_range).
  assert (cardsToTest (handleAnswer st false m) = splice_in i card rest)
    as Hcards.
  { unfold handleAnswer, splice_out. by rewrite Hcard. }
  split.
  { subst len rest. rewrite length_delete by eauto.
    apply lookup_lt_Some in Hcard. lia. }
  split; [done|]. split.
  { rewrite Hcards. apply splice_in_lookup. fold len.
    destruct len; [rewrite H0 by done; lia|]. specialize (H1 ltac:(lia)). lia. }
  split. { unfold handleAnswer, splice_out. by rewrite Hcard. }
  split; [done|]. split; [done|].
  intros H2. specialize (H1 ltac:(lia)).
  assert (1 ≤ len / 2) by (apply Nat.div_le_lower_bound; lia). lia.
Qed.

Lemma needs_review_reinsertion_witness :
  let st := reveal (startTest [card_a; card_b; card_c] (λ _, 0%Z)) in
  let i := insertIndex 2 (2 ^ 52) in
  cardsToTest (handleAnswer st false (2 ^ 52)) !! i = Some (Some card_a)
  ∧ 2 / 2 ≤ i < 2
  ∧ i ≠ 0.
Proof.
  intros st i.
  assert (is_draw (2 ^ 52)) as Hm by (unfold is_draw; lia).
  destruct (needs_review_reinsertion st (2 ^ 52) (Some card_a) Hm eq_refl)
    as (_ & _ & Hat & _ & _ & H1 & H2).
  split; [exact Hat|]. split; [apply H1|apply H2]; vm_compute; lia.
Defined.

(** C10: after an answer, from any state whatever, the index is below the
    number of cards to test whenever one is left: the handler sets it to 0
    as soon as it is no longer below the new number of cards, equal to it
    included, and keeps it otherwise.  So in every state of a running test
    with a card left to test the index is below the number of cards to
    test, and the cell it names holds a card. *)
Theorem currentIndex_in_bounds :
  (∀ (st : TestState) (knewIt : bool) (m : Z),
     let st' := handleAnswer st knewIt m in
     (cardsToTest st' ≠ [] → currentIndex st' < length (cardsToTest st'))
     ∧ (length (cardsToTest st') ≤ currentIndex st → currentIndex st' = 0)
     ∧ (currentIndex st < length (cardsToTest st') →
        currentIndex st' = currentIndex st))
  ∧ (∀ (flashcards : list Flashcard) (st : TestState),
       reached flashcards st →
       active st = true →
       cardsToTest st ≠ [] →
       currentIndex st < length (cardsToTest st)
       ∧ ∃ card, cardsToTest st !! currentIndex st = Some (Some card)).
Proof.
  split.
  - intros st knewIt m. cbn zeta. split; [apply handleAnswer_index|].
    unfold handleAnswer, splice_out. cbn.
    set (cards := if knewIt then _ else _).
    destruct (Nat.leb_spec (length cards) (currentIndex st)); split; lia || done.
  - intros flashcards st Hr Ha Hne.
    destruct (reachable_partitioned _ _ Hr) as [->|[Hp Hi]]; [done|].
    split; [by apply Hi|].
    destruct (lookup_lt_is_Some_2 _ _ (Hi Hne)) as [slot Hslot].
    assert (slot ∈ Some <$> flashcards) as Hin.
    { rewrite <-Hp. unfold all_cards. apply elem_of_app. left.
      by eapply list_elem_of_lookup_2. }
    apply list_elem_of_fmap in Hin as (card & -> & _). eauto.
Qed.

Lemma currentIndex_in_bounds_witness :
  let st := {| active := true; cardsToTest := [Some card_a; Some card_b];
               masteredCards := []; currentIndex := 1; showAnswer := true |} in
  length (cardsToTest (handleAnswer st true 0)) = currentIndex st
  ∧ currentIndex (handleAnswer st true 0) = 0
  ∧ currentIndex (handleAnswer st true 0)
    < length (cardsToTest (handleAnswer st true 0))
  ∧ currentIndex one_known < length (cardsToTest one_known)
  ∧ ∃ card, cardsToTest one_known !! currentIndex one_known = Some (Some card).
Proof.
  intros st. destruct currentIndex_in_bounds as [Hany Hreached].
  destruct (Hany st true 0%Z) as (Hlt & Hreset & _).
  destruct (Hreached [card_a; card_b; card_c] one_known
              one_known_reachable eq_refl ltac:(discriminate)) as [Hi Hc].
  split; [reflexivity|]. split; [apply Hreset; vm_compute; lia|].
  split; [apply Hlt; discriminate|]. split; [exact Hi|exact Hc].
Defined.

End FlashcardClaims.

(** * Further properties *)

(** ** The flashcard test *)

Section FlashcardRuns.
Import Flashcards Runs.

Lemma reached_index_zero flashcards st :
  reached flashcards st → currentIndex st = 0.
Proof.
  unfold reached. revert st.
  apply (rtc_ind_r (R := step flashcards) (λ st, currentIndex st = 0));
    [done|].
  intros y z _ Hstep IH. destruct Hstep; simpl; try done.
  unfold handleAnswer, splice_out. cbn. rewrite IH. by destruct (_ <=? 0).
Qed.

Lemma reached_step flashcards st st' :
  reached flashcards st → step flashcards st st' → reached flashcards st'.
Proof. intros Hr Hs. eapply rtc_r; eauto. Qed.

Lemma handleAnswer_head st knewIt m c rest :
  currentIndex st = 0 → cardsToTest st = c :: rest →
  handleAnswer st knewIt m =
    {| active := active st;
       cardsToTest :=
         if knewIt then rest
         else splice_in (insertIndex (length rest) m) c rest;
       masteredCards :=
         if knewIt then masteredCards st ++ [c] else masteredCards st;
       currentIndex := 0;
       showAnswer := false |}.
Proof.
  intros Hi Hc. unfold handleAnswer, splice_out. rewrite Hi, Hc. cbn.
  by destruct (_ <=? 0).
Qed.

(** X1: The card shown in a running test is always the first of the cards to
    test, and it is a card. *)
Theorem test_shows_first_card
    (flashcards : list Flashcard) (st : TestState) :
  reached flashcards st →
  active st = true →
  cardsToTest st ≠ [] →
  currentIndex st = 0
  ∧ ∃ card rest, cardsToTest st = Some card :: rest
                 ∧ cardsToTest st !! currentIndex st = Some (Some card).
Proof.
  intros Hr Ha Hne. pose proof (reached_index_zero _ _ Hr) as H0.
  split; [done|].
  destruct (reachable_partitioned _ _ Hr) as [->|[Hp _]]; [done|].
  destruct (cardsToTest st) as [|slot rest] eqn:Hc; [done|].
  assert (slot ∈ Some <$> flashcards) as Hin.
  { rewrite <-Hp. unfold all_cards. rewrite Hc. apply list_elem_of_here. }
  apply list_elem_of_fmap in Hin as (card & -> & _).
  exists card, rest. by rewrite H0.
Qed.

Lemma test_shows_first_card_witness :
  currentIndex one_known = 0
  ∧ ∃ card rest, cardsToTest one_known = Some card :: rest
                 ∧ cardsToTest one_known !! currentIndex one_known
                   = Some (Some card).
Proof.
  apply (test_shows_first_card [card_a; card_b; card_c] one_known
           one_known_reachable eq_refl).
  discriminate.
Defined.

(** X2: What an answer does to the two lists: a known card leaves the cards to
    test and is put behind the mastered ones; a card needing review stays
    among as many cards to test as before and the mastered ones are left
    alone.  The cards to test run out only by a known answer to the last one
    of them. *)
Theorem answer_accounting
    (flashcards : list Flashcard) (st : TestState) (m : Z)
    (card : Slot) (rest : list Slot) :
  reached flashcards st →
  cardsToTest st = card :: rest →
  cardsToTest (handleAnswer st true m) = rest
  ∧ masteredCards (handleAnswer st true m) = masteredCards st ++ [card]
  ∧ length (cardsToTest (handleAnswer st false m)) = S (length rest)
  ∧ masteredCards (handleAnswer st false m) = masteredCards st
  ∧ (∀ knewIt, cardsToTest (handleAnswer st knewIt m) = []
               ↔ knewIt = true ∧ rest = []).
Proof.
  intros Hr Hc. pose proof (reached_index_zero _ _ Hr) as H0.
  rewrite !(handleAnswer_head _ _ _ _ _ H0 Hc). cbn.
  split; [done|]. split; [done|].
  assert (length (splice_in (insertIndex (length rest) m) card rest)
          = S (length rest)) as Hlen by (by rewrite splice_in_perm).
  split; [done|]. split; [done|].
  intros knewIt. rewrite H0, Hc. cbn.
  destruct knewIt.
  - split; [by intros ->|by intros [_ ->]].
  - split; [|by intros [? _]].
    intros Hnil. rewrite Hnil in Hlen. done.
Qed.

Lemma answer_accounting_witness :
  cardsToTest (handleAnswer one_known true 7) = [Some card_c]
  ∧ masteredCards (handleAnswer one_known true 7)
    = masteredCards one_known ++ [Some card_b]
  ∧ length (cardsToTest (handleAnswer one_known false 7)) = 2.
Proof.
  destruct (answer_accounting [card_a; card_b; card_c] one_known 7
              (Some card_b) [Some card_c] one_known_reachable eq_refl)
    as (H1 & H2 & H3 & _).
  split; [exact H1|]. split; [exact H2|exact H3].
Defined.

Lemma know_all_run flashcards m cards : ∀ st n,
  is_draw m →
  reached flashcards st → active st = true → showAnswer st = false →
  cardsToTest st = cards → n = length cards →
  let st' := know_all n m st in
  reached flashcards st'
  ∧ cardsToTest st' = []
  ∧ masteredCards st' = masteredCards st ++ cards.
Proof.
  intros st n Hm. revert st n.
  induction cards as [|c cards IH]; intros st n Hr Ha Hs Hc ->; cbn zeta.
  - cbn. by rewrite app_nil_r.
  - unfold know_all. cbn [length]. rewrite Nat.iter_succ_r.
    fold (know_all (length cards) m (handleAnswer (reveal st) true m)).
    assert (reached flashcards (reveal st)) as Hr1.
    { eapply reached_step; [done|]. apply step_reveal; try done.
      by rewrite Hc. }
    assert (reached flashcards (handleAnswer (reveal st) true m)) as Hr2.
    { eapply reached_step; [done|]. apply step_answer; try done.
      simpl. by rewrite Hc. }
    pose proof (reached_index_zero _ _ Hr1) as H0.
    pose proof (handleAnswer_head (reveal st) true m c cards H0 Hc) as Hh.
    destruct (IH (handleAnswer (reveal st) true m) (length cards))
      as (H1 & H2 & H3); try done; try (by rewrite Hh).
    split; [done|]. split; [done|].
    rewrite H3, Hh. cbn. by rewrite <-app_assoc.
Qed.

(** X3: Knowing every card ends the test: after as many rounds of "Show Answer"
    and "I Knew It!" as the deck has cards, no card is left to test and the
    mastered cards are the deck in the order it was shown in. *)
Theorem knowing_every_card_ends_test
    (flashcards : list Flashcard) (oracle : nat → Z) (m : Z) :
  is_draw m →
  let st := know_all (length flashcards) m (startTest flashcards oracle) in
  reached flashcards st
  ∧ cardsToTest st = []
  ∧ masteredCards st = shuffle oracle (Some <$> flashcards)
  ∧ masteredCards st ≡ₚ Some <$> flashcards.
Proof.
  intros Hm st.
  assert (length (shuffle oracle (Some <$> flashcards)) = length flashcards)
    as Hlen by (by rewrite shuffle_perm, length_fmap).
  assert (reached flashcards (startTest flashcards oracle)) as Hr.
  { eapply reached_step; [apply rtc_refl|]. by apply step_start. }
  destruct (know_all_run flashcards m (shuffle oracle (Some <$> flashcards))
              (startTest flashcards oracle) (length flashcards)
              Hm Hr eq_refl eq_refl eq_refl (eq_sym Hlen))
    as (H1 & H2 & H3).
  fold st in H1, H2, H3.
  split; [done|]. split; [done|]. rewrite H3. cbn.
  split; [done|apply shuffle_perm].
Qed.

Lemma knowing_every_card_ends_test_witness :
  cardsToTest (know_all 3 5 (startTest [card_a; card_b; card_c] (λ _, 0%Z)))
    = []
  ∧ masteredCards
      (know_all 3 5 (startTest [card_a; card_b; card_c] (λ _, 0%Z)))
    = [Some card_a; Some card_b; Some card_c].
Proof.
  assert (is_draw 5) as Hm by (unfold is_draw; lia).
  destruct (knowing_every_card_ends_test [card_a; card_b; card_c]
              (λ _, 0%Z) 5 Hm) as (_ & H1 & H2 & _).
  split; [exact H1|exact H2].
Defined.

(** X4: The card shown after "Needs Review": with one or two cards to test
    nothing changes and the same card is shown again; with three or more the
    card that stood second is shown, and the card reviewed stands behind it. *)
Theorem needs_review_next_card
    (flashcards : list Flashcard) (st : TestState) (m : Z)
    (card : Slot) (rest : list Slot) :
  reached flashcards st →
  is_draw m →
  cardsToTest st = card :: rest →
  (length rest ≤ 1 → cardsToTest (handleAnswer st false m) = cardsToTest st)
  ∧ (2 ≤ length rest →
     cardsToTest (handleAnswer st false m) !! 0 = rest !! 0
     ∧ ∃ i, 1 ≤ i
            ∧ cardsToTest (handleAnswer st false m) !! i = Some card).
Proof.
  intros Hr Hm Hc. pose proof (reached_index_zero _ _ Hr) as H0.
  rewrite (handleAnswer_head _ _ _ _ _ H0 Hc), Hc. cbn.
  split.
  - intros Hlen. destruct rest as [|b [|??]]; simpl in Hlen; try lia.
    + by rewrite insertIndex_empty.
    + pose proof (insertIndex_range 1 m Hm ltac:(lia)) as Hi.
      cbn [length]. by replace (insertIndex 1 m) with 0 by lia.
  - intros Hlen.
    pose proof (insertIndex_range (length rest) m Hm ltac:(lia)) as Hi.
    assert (1 ≤ length rest / 2) by (apply Nat.div_le_lower_bound; lia).
    split.
    + unfold splice_in. rewrite lookup_app_l by (rewrite length_take; lia).
      apply lookup_take_lt. lia.
    + exists (insertIndex (length rest) m). split; [lia|].
      apply splice_in_lookup. lia.
Qed.

Lemma needs_review_next_card_witness :
  cardsToTest (handleAnswer one_known false 9) = cardsToTest one_known.
Proof.
  assert (is_draw 9) as Hm by (unfold is_draw; lia).
  destruct (needs_review_next_card [card_a; card_b; card_c] one_known 9
              (Some card_b) [Some card_c] one_known_reachable Hm eq_refl)
    as [H1 _].
  apply H1. simpl. lia.
Defined.

End FlashcardRuns.

(** ** Browsing the deck *)

Section Browsing.
Import Browse.

Lemma press_in_range n v b :
  1 ≤ n →
  (0 ≤ currentCardIndex v < Z.of_nat n)%Z →
  (0 ≤ currentCardIndex (press n v b) < Z.of_nat n)%Z.
Proof. intros Hn Hv. destruct b; simpl; lia. Qed.

Lemma presses_in_range n buttons : ∀ v,
  1 ≤ n →
  (0 ≤ currentCardIndex v < Z.of_nat n)%Z →
  (0 ≤ currentCardIndex (foldl (press n) v buttons) < Z.of_nat n)%Z.
Proof.
  induction buttons as [|b buttons IH]; intros v Hn Hv; [done|].
  simpl. apply IH; [done|by apply press_in_range].
Qed.

(** X5: Browsing a deck that has a card never leaves the deck: whatever buttons
    are pressed, the index names a card; "Next" on the last card and
    "Previous" on the first stay where they are. *)
Theorem browsing_stays_on_a_card
    {A : Type} (flashcards : list A) (buttons : list Button) :
  flashcards ≠ [] →
  let n := length flashcards in
  let v := foldl (press n) first_card buttons in
  is_Some (card flashcards v)
  ∧ (currentCardIndex v = (Z.of_nat n - 1)%Z →
     currentCardIndex (next n v) = currentCardIndex v)
  ∧ (currentCardIndex v = 0%Z →
     currentCardIndex (previous v) = currentCardIndex v).
Proof.
  intros Hne n v.
  assert (1 ≤ n) as Hn by (subst n; destruct flashcards; simpl; [done|lia]).
  assert (0 ≤ currentCardIndex v < Z.of_nat n)%Z as Hv
    by (apply presses_in_range; simpl; lia).
  split; [|split; simpl; lia].
  unfold card. destruct (Z.ltb_spec (currentCardIndex v) 0); [lia|].
  apply lookup_lt_is_Some. fold n. lia.
Qed.

Lemma browsing_stays_on_a_card_witness :
  is_Some (card ["a"; "b"]
             (foldl (press 2) first_card [Next; Next; Next; Card; Previous])).
Proof.
  apply (browsing_stays_on_a_card ["a"; "b"]
           [Next; Next; Next; Card; Previous]).
  discriminate.
Defined.

End Browsing.

(** ** Answering the quiz *)

Section Answering.
Import Quiz Answers QuizRunner.

Lemma includes_elem l x : Topics.includes l x = true ↔ x ∈ l.
Proof.
  unfold Topics.includes. rewrite existsb_exists, list_elem_of_In. split.
  - by intros (y & Hy & ->%String.eqb_eq).
  - intros Hx. exists x. by rewrite String.eqb_refl.
Qed.

Lemma elem_filter_ne (l : list string) x y :
  y ∈ List.filter (λ a, negb (String.eqb a x)) l ↔ y ∈ l ∧ y ≠ x.
Proof.
  rewrite !list_elem_of_In, filter_In, negb_true_iff, String.eqb_neq. done.
Qed.

Lemma NoDup_list_filter (f : string → bool) (l : list string) :
  NoDup l → NoDup (List.filter f l).
Proof.
  intros Hnd. apply NoDup_ListNoDup, List.NoDup_filter, NoDup_ListNoDup, Hnd.
Qed.

Lemma filter_ne_notin (l : list string) x :
  x ∉ l → List.filter (λ a, negb (String.eqb a x)) l = l.
Proof.
  induction l as [|y l IH]; [done|]. intros Hx. simpl.
  apply not_elem_of_cons in Hx as [Hne Hx].
  destruct (String.eqb_spec y x) as [->|_]; [done|]. simpl. by rewrite IH.
Qed.

Lemma given_insert (ua : gmap nat (list string)) i l :
  given (<[i := l]> ua) i = l.
Proof. unfold given. by rewrite lookup_insert_eq. Qed.

Lemma handleAnswerChange_other prev i a multi j :
  j ≠ i → handleAnswerChange prev i a multi !! j = prev !! j.
Proof.
  intros Hne. unfold handleAnswerChange.
  destruct multi; [destruct (Topics.includes _ _)|];
    by rewrite lookup_insert_ne.
Qed.

Lemma handleAnswerChange_toggle prev i a :
  given (handleAnswerChange prev i a true) i =
    if Topics.includes (given prev i) a
    then List.filter (λ b, negb (String.eqb b a)) (given prev i)
    else given prev i ++ [a].
Proof.
  unfold handleAnswerChange. fold (given prev i).
  destruct (Topics.includes _ _); by rewrite given_insert.
Qed.

(** X6: A change of answer touches the answers of its question only and leaves
    them without a repetition.  A radio button or a text input makes its
    value the only answer; a check box takes its option out when it is among
    the answers and puts it in behind them when it is not, and leaves every
    other option as it is. *)
Theorem answer_change_toggles
    (prev : gmap nat (list string)) (i : nat) (a : string) (multi : bool) :
  NoDup (given prev i) →
  let ua := handleAnswerChange prev i a multi in
  (∀ j, j ≠ i → ua !! j = prev !! j)
  ∧ is_Some (ua !! i)
  ∧ NoDup (given ua i)
  ∧ (multi = false → given ua i = [a])
  ∧ (multi = true →
     (a ∈ given ua i ↔ a ∉ given prev i)
     ∧ ∀ b, b ≠ a → (b ∈ given ua i ↔ b ∈ given prev i)).
Proof.
  intros Hnd ua.
  split; [intros j Hj; by apply handleAnswerChange_other|].
  split.
  { subst ua. unfold handleAnswerChange.
    destruct multi; [destruct (Topics.includes _ _)|];
      rewrite lookup_insert_eq; eauto. }
  destruct multi.
  - subst ua. rewrite handleAnswerChange_toggle.
    destruct (Topics.includes (given prev i) a) eqn:Hin.
    + apply includes_elem in Hin.
      split; [by apply NoDup_list_filter|].
      split; [done|]. intros _. split.
      * rewrite elem_filter_ne. intuition congruence.
      * intros b Hb. rewrite elem_filter_ne. intuition congruence.
    + assert (a ∉ given prev i) as Hnot.
      { intros Hx%includes_elem. congruence. }
      split.
      { apply NoDup_app. split; [done|]. split; [|apply NoDup_singleton].
        intros x Hx ->%list_elem_of_singleton. done. }
      split; [done|]. intros _. split.
      * rewrite elem_of_app, list_elem_of_singleton. intuition congruence.
      * intros b Hb. rewrite elem_of_app, list_elem_of_singleton.
        intuition congruence.
  - subst ua. unfold handleAnswerChange. rewrite given_insert.
    split; [apply NoDup_singleton|]. split; [done|]. done.
Qed.

Lemma answer_change_toggles_witness :
  let prev : gmap nat (list string) := {[ 0 := ["a"; "b"] ]} in
  given (handleAnswerChange prev 0 "a" true) 0 = ["b"]
  ∧ handleAnswerChange prev 0 "a" true !! 1 = None
  ∧ NoDup (given (handleAnswerChange prev 0 "c" true) 0).
Proof.
  intros prev.
  assert (NoDup (given prev 0)) as Hnd.
  { apply NoDup_cons. split; [|apply NoDup_singleton].
    intros Hx%list_elem_of_singleton. discriminate Hx. }
  destruct (answer_change_toggles prev 0 "a" true Hnd) as (H1 & _).
  destruct (answer_change_toggles prev 0 "c" true Hnd) as (_ & _ & H3 & _).
  split; [reflexivity|]. split; [exact (H1 1 ltac:(lia))|exact H3].
Defined.

(** X7: Clicking a check box twice gives the answers that were there before, up
    to their order, and so the same grade. *)
Theorem toggling_twice_restores
    (quiz : Quiz.Quiz) (prev : gmap nat (list string)) (i : nat) (a : string) :
  NoDup (given prev i) →
  let ua :=
    handleAnswerChange (handleAnswerChange prev i a true) i a true in
  given ua i ≡ₚ given prev i
  ∧ score (grade quiz ua) = score (grade quiz prev)
  ∧ incorrectQuestions (grade quiz ua) = incorrectQuestions (grade quiz prev).
Proof.
  intros Hnd ua.
  assert (∀ j, given ua j ≡ₚ given prev j) as Hp.
  { intros j. destruct (decide (j = i)) as [->|Hne].
    - subst ua. rewrite !handleAnswerChange_toggle.
      destruct (Topics.includes (given prev i) a) eqn:Hin.
      + apply includes_elem in Hin.
        assert (Topics.includes
                  (List.filter (λ b, negb (String.eqb b a)) (given prev i)) a
                = false) as ->.
        { apply not_true_is_false. rewrite includes_elem, elem_filter_ne.
          intuition congruence. }
        apply NoDup_Permutation; [| done |].
        * apply NoDup_app. split; [by apply NoDup_list_filter|].
          split; [|apply NoDup_singleton].
          intros x Hx ->%list_elem_of_singleton.
          apply elem_filter_ne in Hx. intuition congruence.
        * intros x. rewrite elem_of_app, elem_filter_ne,
            list_elem_of_singleton.
          destruct (decide (x = a)); intuition congruence.
      + assert (a ∉ given prev i) as Hnot.
        { intros Hx%includes_elem. congruence. }
        assert (Topics.includes (given prev i ++ [a]) a = true) as ->.
        { apply includes_elem, elem_of_app. right.
          by apply list_elem_of_singleton. }
        rewrite List.filter_app, (filter_ne_notin _ _ Hnot). simpl.
        rewrite String.eqb_refl. simpl. by rewrite app_nil_r.
    - unfold given. subst ua. by rewrite !handleAnswerChange_other. }
  split; [apply Hp|].
  destruct (forEach_spec (questions quiz) 0 ua 0 []) as (_ & Hs & Hi).
  destruct (forEach_spec (questions quiz) 0 prev 0 []) as (_ & Hs' & Hi').
  destruct (spec_perm (questions quiz) 0 ua prev Hp) as [Es Ei].
  unfold grade. rewrite Hs, Hi, Hs', Hi', Es, Ei. done.
Qed.

Lemma toggling_twice_restores_witness :
  let prev : gmap nat (list string) := {[ 0 := ["Paris"; "Rome"] ]} in
  given (handleAnswerChange (handleAnswerChange prev 0 "Paris" true)
           0 "Paris" true) 0
    ≡ₚ ["Paris"; "Rome"].
Proof.
  intros prev.
  assert (NoDup (given prev 0)) as Hnd.
  { apply NoDup_cons. split; [|apply NoDup_singleton].
    intros Hx%list_elem_of_singleton. discriminate Hx. }
  apply (toggling_twice_restores paris_quiz prev 0 "Paris" Hnd).
Defined.

Lemma click_all_given clicks : ∀ prev i,
  NoDup (given prev i ++ clicks) →
  given (click_all prev i clicks) i = given prev i ++ clicks.
Proof.
  induction clicks as [|a clicks IH]; intros prev i Hnd.
  - by rewrite app_nil_r.
  - unfold click_all. cbn [foldl].
    fold (click_all (handleAnswerChange prev i a true) i clicks).
    assert (given (handleAnswerChange prev i a true) i = given prev i ++ [a])
      as Hstep.
    { rewrite handleAnswerChange_toggle.
      assert (Topics.includes (given prev i) a = false) as ->; [|done].
      apply not_true_is_false. rewrite includes_elem. intros Hin.
      apply NoDup_app in Hnd as (_ & Hdis & _).
      apply (Hdis a Hin), list_elem_of_here. }
    rewrite IH; rewrite Hstep, <-app_assoc; done.
Qed.

Lemma grade_incorrect_elem quiz ua i q :
  questions quiz !! i = Some q →
  i ∈ incorrectQuestions (grade quiz ua) ↔ ¬ answer q ≡ₚ given ua i.
Proof.
  intros Hq.
  destruct (forEach_spec (questions quiz) 0 ua 0 []) as (_ & _ & Hi).
  unfold grade. rewrite Hi. simpl. rewrite incorrect_spec_elem.
  rewrite Nat.sub_0_r. split.
  - intros (q' & Hq' & _ & Hne). by simplify_eq.
  - intros Hne. exists q. auto with lia.
Qed.

(** X8: From clicks to the grade: the options of a question not answered yet,
    clicked one after the other with no option twice, are its answers in the
    order of the clicks, and the question is graded as incorrect exactly
    when the options clicked are not the canonical answers in some order. *)
Theorem clicks_then_grade
    (quiz : Quiz.Quiz) (prev : gmap nat (list string)) (i : nat)
    (q : QuizQuestion) (clicks : list string) :
  questions quiz !! i = Some q →
  prev !! i = None →
  NoDup clicks →
  let ua := click_all prev i clicks in
  given ua i = clicks
  ∧ (i ∈ incorrectQuestions (grade quiz ua) ↔ ¬ answer q ≡ₚ clicks).
Proof.
  intros Hq Hnone Hnd ua.
  assert (given prev i = []) as Hg by (unfold given; by rewrite Hnone).
  assert (given ua i = clicks) as Hclicks.
  { subst ua. rewrite click_all_given; rewrite Hg; done. }
  split; [done|]. by rewrite (grade_incorrect_elem quiz ua i q Hq), Hclicks.
Qed.

Lemma clicks_then_grade_witness :
  let q := {| question := "Pick two"; options := Some ["a"; "b"; "c"];
              answer := ["a"; "b"]; type := mcq_multiple;
              explanation := "" |} in
  let quiz := {| title := "t"; questions := [q]; swotAnalysis := "" |} in
  given (click_all ∅ 0 ["b"; "a"]) 0 = ["b"; "a"]
  ∧ (0 ∈ incorrectQuestions (grade quiz (click_all ∅ 0 ["b"; "a"]))
     ↔ ¬ ["a"; "b"] ≡ₚ ["b"; "a"]).
Proof.
  intros q quiz.
  assert (NoDup ["b"; "a"]) as Hnd.
  { apply NoDup_cons. split; [|apply NoDup_singleton].
    intros Hx%list_elem_of_singleton. discriminate Hx. }
  apply (clicks_then_grade quiz ∅ 0 q ["b"; "a"] eq_refl (lookup_empty 0) Hnd).
Defined.

(** X9: A single-choice or short-answer question is graded as correct exactly
    when its canonical answers are the one string chosen or typed, as it is:
    a question of that kind with two canonical answers cannot be answered
    correctly. *)
Theorem single_answer_grading
    (quiz : Quiz.Quiz) (prev : gmap nat (list string)) (i : nat)
    (q : QuizQuestion) (a : string) :
  questions quiz !! i = Some q →
  let ua := handleAnswerChange prev i a false in
  (i ∈ incorrectQuestions (grade quiz ua) ↔ answer q ≠ [a])
  ∧ (2 ≤ length (answer q) → i ∈ incorrectQuestions (grade quiz ua)).
Proof.
  intros Hq ua.
  assert (given ua i = [a]) as Hg.
  { subst ua. unfold handleAnswerChange. apply given_insert. }
  assert (answer q ≡ₚ [a] ↔ answer q = [a]) as Hone.
  { split; [|by intros ->]. intros Hp. symmetry in Hp.
    by apply Permutation_singleton_l in Hp. }
  rewrite (grade_incorrect_elem quiz ua i q Hq), Hg, Hone.
  split; [done|]. intros Hlen Heq. rewrite Heq in Hlen. simpl in Hlen. lia.
Qed.

Lemma single_answer_grading_witness :
  0 ∈ incorrectQuestions
        (grade paris_quiz (handleAnswerChange ∅ 0 "Paris " false))
  ↔ ["Paris"] ≠ ["Paris "].
Proof.
  apply (single_answer_grading paris_quiz ∅ 0 _ "Paris " eq_refl).
Defined.

(** X10: The comparison of the two JSON texts in [handleSubmit] is the
    comparison of the two arrays: no two different arrays of strings have
    the same text, whatever quotes, commas, brackets or backslashes the
    strings hold. *)
Theorem json_comparison_exact (l1 l2 : list string) :
  String.eqb (JSON_stringify l1) (JSON_stringify l2) = true ↔ l1 = l2.
Proof.
  rewrite String.eqb_eq. split; [apply JSON_stringify_inj|by intros ->].
Qed.

Lemma forEach_userAnswers qs : ∀ i ua sc inc j,
  g_userAnswers (forEachQuestion i qs ua sc inc) !! j =
    if bool_decide (i ≤ j < i + length qs) then sort <$> ua !! j
    else ua !! j.
Proof.
  induction qs as [|q qs IH]; intros i ua sc inc j.
  - cbn. rewrite bool_decide_eq_false_2 by lia. done.
  - cbn [forEachQuestion g_userAnswers length].
    fold (sort_given ua i).
    assert (∀ sc' inc',
      g_userAnswers (forEachQuestion (S i) qs (sort_given ua i) sc' inc') !! j
      = if bool_decide (i ≤ j < i + S (length qs)) then sort <$> ua !! j
        else ua !! j) as Hrec.
    { intros sc' inc'. rewrite IH. unfold sort_given, given.
      destruct (decide (j = i)) as [->|Hne].
      - rewrite bool_decide_eq_false_2, bool_decide_eq_true_2 by lia.
        destruct (ua !! i) eqn:Hi; [by rewrite lookup_insert_eq|].
        by rewrite Hi.
      - assert ((match ua !! i with
                 | Some _ => <[i:=sort (default [] (ua !! i))]> ua
                 | None => ua end) !! j = ua !! j) as ->.
        { destruct (ua !! i); [by rewrite lookup_insert_ne|done]. }
        destruct (decide (S i ≤ j < S i + length qs)).
        + rewrite !bool_decide_eq_true_2 by lia. done.
        + rewrite !bool_decide_eq_false_2 by lia. done. }
    destruct (String.eqb _ _); apply Hrec.
Qed.

(** X11: Grading leaves its mark on the answers of the user: the answers stored
    for a question of the quiz are in sorted order afterwards; no entry is
    added or taken away, and entries that are not of a question of the quiz
    are left as they are. *)
Theorem grading_sorts_stored_answers
    (quiz : Quiz.Quiz) (ua : gmap nat (list string)) (j : nat) :
  g_userAnswers (grade quiz ua) !! j =
    (if bool_decide (j < length (questions quiz)) then sort <$> ua !! j
     else ua !! j)
  ∧ dom (g_userAnswers (grade quiz ua)) = dom ua.
Proof.
  assert (∀ k, g_userAnswers (grade quiz ua) !! k =
    if bool_decide (k < length (questions quiz)) then sort <$> ua !! k
    else ua !! k) as Hk.
  { intros k. unfold grade. rewrite forEach_userAnswers.
    destruct (decide (k < length (questions quiz))).
    - rewrite !bool_decide_eq_true_2 by lia. done.
    - rewrite !bool_decide_eq_false_2 by lia. done. }
  split; [apply Hk|].
  apply set_eq. intros k. rewrite !elem_of_dom, Hk.
  destruct (bool_decide _); [|done]. by rewrite fmap_is_Some.
Qed.

(** X12: With every question answered correctly the handler settles without a
    request and without reading [ai]: the score is the number of questions,
    whatever [ai] stands for. *)
Theorem perfect_score_settles
    (ai : Binding) (subject : string) (sel : Topics.TopicSelection)
    (quiz : Quiz.Quiz) (st : Component) (outcome : Outcome) :
  incorrectQuestions (grade quiz (userAnswers st)) = [] →
  let run := handleSubmit ai subject sel quiz st outcome in
  completion run = fulfilled
  ∧ requests run = []
  ∧ personalizedSuggestions (state run) = personalizedSuggestions st
  ∧ results (state run) = Some (length (questions quiz), []).
Proof.
  intros Hnil run. subst run. unfold handleSubmit. cbn zeta. rewrite Hnil.
  cbn. repeat split. rewrite Hnil. do 2 f_equal.
  destruct (forEach_spec (questions quiz) 0 (userAnswers st) 0 [])
    as (_ & Hs & Hi).
  fold (grade quiz (userAnswers st)) in Hs, Hi.
  pose proof (score_incorrect_total (questions quiz) 0 (userAnswers st)) as Ht.
  rewrite Hnil in Hi. simpl in Hs, Hi. rewrite <-Hi in Ht. simpl in Ht. lia.
Qed.

Lemma perfect_score_settles_witness :
  let st := {| userAnswers := {[ 0 := ["Paris"] ]}; submitted := false;
               results := None; personalizedSuggestions := "";
               isLoadingSuggestions := false |} in
  completion (handleSubmit unbound "Geography" Topics.empty paris_quiz st
                rejects) = fulfilled
  ∧ results (state (handleSubmit unbound "Geography" Topics.empty paris_quiz
                      st rejects)) = Some (1, []).
Proof.
  intros st.
  destruct (perfect_score_settles unbound "Geography" Topics.empty paris_quiz
              st rejects eq_refl) as (H1 & _ & _ & H4).
  split; [exact H1|exact H4].
Defined.

End Answering.

(** ** File names and the CSV file *)

Section FileNames.
Import Flashcards Files.

Lemma substring_to_length n : ∀ s,
  String.length (substring_to n s) = Nat.min (String.length s) n.
Proof.
  induction n as [|n IH]; intros [|c s]; simpl; try done.
  by rewrite IH.
Qed.

Lemma replace_unsafe_length s :
  String.length (replace_unsafe s) = String.length s.
Proof. induction s as [|c s IH]; simpl; [done|]. by rewrite IH. Qed.

Lemma underscore_is_filename_char : is_filename_char "_" = true.
Proof. reflexivity. Qed.

Lemma replace_unsafe_safe s : all_chars is_filename_char (replace_unsafe s) = true.
Proof.
  induction s as [|c s IH]; simpl; [done|]. rewrite IH, andb_true_r.
  destruct (is_filename_char c) eqn:Hc; [done|apply underscore_is_filename_char].
Qed.

Lemma substring_to_all f n : ∀ s,
  all_chars f s = true → all_chars f (substring_to n s) = true.
Proof.
  induction n as [|n IH]; intros [|c s]; simpl; try done.
  intros [-> Hs]%andb_true_iff. by rewrite IH.
Qed.

Lemma replace_unsafe_id s :
  all_chars is_filename_char s = true → replace_unsafe s = s.
Proof.
  induction s as [|c s IH]; simpl; [done|].
  intros [-> Hs]%andb_true_iff. by rewrite IH.
Qed.

Lemma substring_to_id n : ∀ s, String.length s ≤ n → substring_to n s = s.
Proof.
  induction n as [|n IH]; intros [|c s]; simpl; try done; try lia.
  intros Hlen. rewrite IH; [done|lia].
Qed.

(** X13: A sanitized name is fit for a file name: it has as many characters as
    the name, up to the limit, and each one is a letter, a digit, an
    underscore, a period or a hyphen: no slash, no colon, no space. *)
Theorem sanitized_name_is_safe (limit : nat) (name : string) :
  String.length (sanitize limit name) = Nat.min (String.length name) limit
  ∧ all_chars is_filename_char (sanitize limit name) = true
  ∧ String.length (sanitizeFilename name) ≤ 100
  ∧ String.length (ResultView_sanitizeFilename name) ≤ 50.
Proof.
  unfold sanitizeFilename, ResultView_sanitizeFilename, sanitize.
  rewrite !substring_to_length, replace_unsafe_length.
  split; [done|]. split; [|lia].
  apply substring_to_all, replace_unsafe_safe.
Qed.

(** X14: Sanitizing again changes nothing, and a name of safe characters within
    the limit is left as it is. *)
Theorem sanitize_idempotent (limit : nat) (name : string) :
  sanitize limit (sanitize limit name) = sanitize limit name
  ∧ (all_chars is_filename_char name = true → String.length name ≤ limit →
     sanitize limit name = name).
Proof.
  unfold sanitize. split.
  - rewrite replace_unsafe_id
      by apply substring_to_all, replace_unsafe_safe.
    apply substring_to_id. rewrite substring_to_length. lia.
  - intros Hsafe Hlen. rewrite replace_unsafe_id by done.
    by apply substring_to_id.
Qed.

Lemma sanitize_idempotent_witness :
  sanitize 10 "notes-1.pdf" = "notes-1.pd"
  ∧ sanitize 20 "notes-1.pdf" = "notes-1.pdf".
Proof.
  destruct (sanitize_idempotent 20 "notes-1.pdf") as [_ H].
  split; [reflexivity|]. apply H; [reflexivity|simpl; lia].
Defined.

Lemma double_quotes_inj s1 : ∀ s2 r1 r2,
  no_quote_ahead r1 → no_quote_ahead r2 →
  double_quotes s1 +:+ String Quiz.dquote r1
    = double_quotes s2 +:+ String Quiz.dquote r2 →
  s1 = s2 ∧ r1 = r2.
Proof.
  induction s1 as [|c1 s1 IH]; intros [|c2 s2] r1 r2 H1 H2; cbn [double_quotes].
  - by intros [= ->].
  - destruct (Ascii.eqb_spec c2 Quiz.dquote) as [->|Hc];
      rewrite !string_app_cons; intros [= Heq]; [|done].
    by destruct r1 as [|c r1]; simplify_eq/=.
  - destruct (Ascii.eqb_spec c1 Quiz.dquote) as [->|Hc];
      rewrite !string_app_cons; intros [= Heq]; [|done].
    by destruct r2 as [|c r2]; simplify_eq/=.
  - destruct (Ascii.eqb_spec c1 Quiz.dquote) as [->|Hc1],
      (Ascii.eqb_spec c2 Quiz.dquote) as [->|Hc2];
      rewrite !string_app_cons; intros Heq.
    + injection Heq as Heq. destruct (IH _ _ _ H1 H2 Heq) as [-> ->]. done.
    + by injection Heq as <-.
    + by injection Heq as ->.
    + injection Heq as -> Heq. destruct (IH _ _ _ H1 H2 Heq) as [-> ->]. done.
Qed.

Lemma csv_field_app s r :
  csv_field s +:+ r
  = String Quiz.dquote (double_quotes s +:+ String Quiz.dquote r).
Proof. unfold csv_field. by rewrite string_app_cons, string_app_assoc. Qed.

Lemma csv_row_inj fc1 fc2 r1 r2 :
  no_quote_ahead r1 → no_quote_ahead r2 →
  csv_row fc1 +:+ r1 = csv_row fc2 +:+ r2 → fc1 = fc2 ∧ r1 = r2.
Proof.
  intros H1 H2. unfold csv_row.
  rewrite !string_app_assoc, !csv_field_app. intros [= Heq].
  apply double_quotes_inj in Heq as [Hq Heq];
    [|by intros [=]|by intros [=]].
  injection Heq as Heq. apply double_quotes_inj in Heq as [Ha Hr]; [|done..].
  destruct fc1, fc2; simplify_eq/=. done.
Qed.

Lemma join_rows_cons fc l :
  join LF (map csv_row (fc :: l)) = csv_row fc +:+ more_rows l.
Proof. destruct l; [|done]. cbn. by rewrite string_app_empty_r. Qed.

Lemma more_rows_no_quote l : no_quote_ahead (more_rows l).
Proof. destruct l; [done|]. by intros [=]. Qed.

Lemma join_rows_inj l1 : ∀ l2,
  join LF (map csv_row l1) = join LF (map csv_row l2) → l1 = l2.
Proof.
  induction l1 as [|fc1 l1 IH]; intros [|fc2 l2].
  - done.
  - rewrite join_rows_cons. unfold csv_row.
    rewrite string_app_assoc, csv_field_app. discriminate.
  - rewrite join_rows_cons. unfold csv_row.
    rewrite string_app_assoc, csv_field_app. discriminate.
  - rewrite !join_rows_cons.
    intros [-> Hmore]%csv_row_inj; [|apply more_rows_no_quote..].
    f_equal. destruct l1 as [|? l1], l2 as [|? l2]; try done.
    cbn [more_rows] in Hmore. injection Hmore as Hmore. by apply IH.
Qed.

(** X15: The CSV text of a deck holds the deck: two decks with the same text are
    the same deck, whatever quotes, commas and newlines the questions and
    answers hold. *)
Theorem csvContent_holds_the_deck (deck1 deck2 : list Flashcard) :
  csvContent deck1 = csvContent deck2 ↔ deck1 = deck2.
Proof.
  split; [|by intros ->]. unfold csvContent. intros Heq.
  do 3 apply (inj (String.app _)) in Heq. by apply join_rows_inj.
Qed.

End FileNames.

(** ** The check boxes of the topic selection *)

Section TopicBoxes.
Import Topics TopicsView.

Lemma newTopics_NoDup s t : NoDup (topics s) → NoDup (newTopics s t).
Proof.
  intros Hnd. unfold newTopics.
  destruct (includes (topics s) t) eqn:Hin.
  - apply NoDup_ListNoDup, List.NoDup_filter, NoDup_ListNoDup, Hnd.
  - apply NoDup_app. split; [done|]. split; [|apply NoDup_singleton].
    intros x Hx ->%list_elem_of_singleton.
    apply includes_elem in Hx. congruence.
Qed.

Lemma reachable_NoDup s : reachable s → NoDup (topics s).
Proof.
  induction 1 as [|s u _ _|s t _ IH|]; try apply NoDup_nil_2.
  - rewrite handleUnitSelect_topics. apply NoDup_nil_2.
  - destruct (handleTopicSelect_cases s t) as [[_ ->]|[_ ->]]; [done|].
    by apply newTopics_NoDup.
Qed.

(** X16: The check box of a topic is disabled exactly when the handler would
    turn the click down: of a click on an enabled box the handler makes the
    new selection. *)
Theorem checkbox_guard_agrees (s : TopicSelection) (topic : string) :
  reachable s →
  (checkbox_disabled s topic = true ↔ 3 < length (newTopics s topic))
  ∧ (checkbox_disabled s topic = false →
     handleTopicSelect s topic
     = {| unit := None; topics := newTopics s topic |}).
Proof.
  intros Hs. destruct (reachable_exclusive s Hs) as [Hlen _].
  assert (checkbox_disabled s topic = true ↔ 3 < length (newTopics s topic))
    as Hiff.
  { unfold checkbox_disabled, newTopics.
    destruct (includes (topics s) topic); cbn [negb].
    - rewrite andb_false_r.
      pose proof (List.filter_length_le
                    (λ t, negb (String.eqb t topic)) (topics s)).
      split; [done|lia].
    - rewrite andb_true_r, length_app, Nat.leb_le. cbn [length]. lia. }
  split; [done|]. intros Hoff.
  destruct (handleTopicSelect_cases s topic) as [[Hgt _]|[_ ->]]; [|done].
  apply Hiff in Hgt. congruence.
Qed.

Lemma checkbox_guard_agrees_witness :
  let s := handleTopicSelect
             (handleTopicSelect (handleTopicSelect empty "a") "b") "c" in
  checkbox_disabled s "d" = true ↔ 3 < length (newTopics s "d").
Proof.
  intros s. assert (reachable s) as Hs by (repeat constructor).
  apply (checkbox_guard_agrees s "d" Hs).
Defined.

(** X17: No topic is ever selected twice over.  Clicking a topic not selected
    yet, with room for it, and clicking it again gives the topics that were
    selected before; selecting a unit and selecting it again leaves nothing
    selected. *)
Theorem topics_never_repeat
    (s : TopicSelection) (topic unitName : string) :
  reachable s →
  NoDup (topics s)
  ∧ (includes (topics s) topic = false → length (topics s) < 3 →
     handleTopicSelect (handleTopicSelect s topic) topic
     = {| unit := None; topics := topics s |})
  ∧ (unit_is s unitName = false →
     handleUnitSelect (handleUnitSelect s unitName) unitName = empty).
Proof.
  intros Hs. split; [by apply reachable_NoDup|]. split.
  - intros Hin Hlen.
    assert (newTopics s topic = topics s ++ [topic]) as Hnew
      by (unfold newTopics; by rewrite Hin).
    assert (handleTopicSelect s topic
            = {| unit := None; topics := topics s ++ [topic] |}) as ->.
    { unfold handleTopicSelect. rewrite Hnew, length_app. simpl.
      destruct (Nat.ltb_spec 3 (length (topics s) + 1)); [lia|done]. }
    assert (newTopics {| unit := None; topics := topics s ++ [topic] |} topic
            = topics s) as Hback.
    { unfold newTopics. simpl.
      assert (includes (topics s ++ [topic]) topic = true) as ->.
      { apply includes_elem, elem_of_app. right.
        by apply list_elem_of_singleton. }
      rewrite List.filter_app. simpl. rewrite String.eqb_refl. simpl.
      rewrite app_nil_r. clear -Hin.
      induction (topics s) as [|x l IH]; [done|]. simpl in *.
      apply orb_false_iff in Hin as [Hx Hl].
      rewrite String.eqb_sym, Hx. simpl. by rewrite IH. }
    unfold handleTopicSelect. rewrite Hback.
    destruct (Nat.ltb_spec 3 (length (topics s))); [lia|done].
  - intros Hu. unfold handleUnitSelect at 2. rewrite Hu.
    unfold handleUnitSelect, unit_is. simpl. by rewrite String.eqb_refl.
Qed.

Lemma topics_never_repeat_witness :
  let s := handleTopicSelect (handleTopicSelect empty "a") "b" in
  NoDup (topics s)
  ∧ handleTopicSelect (handleTopicSelect s "c") "c"
    = {| unit := None; topics := ["a"; "b"] |}.
Proof.
  intros s. assert (reachable s) as Hs by (repeat constructor).
  destruct (topics_never_repeat s "c" "U" Hs) as (H1 & H2 & _).
  split; [exact H1|]. apply H2; [reflexivity|simpl; lia].
Defined.

End TopicBoxes.

(** ** The Next button of the topic selection *)

Section TopicNext.
Import Topics TopicsView.

(** X18: When the Next button is enabled the selection is well formed: either a
    unit and no topic, or no unit and one to three topics. *)
Theorem next_needs_one_selection (s : TopicSelection) :
  reachable s → isNextDisabled s = false →
  (∃ u, unit s = Some u ∧ u ≠ "" ∧ topics s = [])
  ∨ (unit s = None ∧ 1 ≤ length (topics s) ≤ 3).
Proof.
  intros [Hlen Hex]%reachable_exclusive. unfold isNextDisabled.
  destruct (unit s) as [u|] eqn:Hu.
  - destruct Hex as [?|Hnil]; [done|]. rewrite Hnil. cbn.
    rewrite andb_true_r. intros Ht%negb_false_iff.
    left. exists u. split; [done|]. split; [|done]. by intros ->.
  - cbn. destruct (topics s) as [|t l]; [done|].
    intros _. right. cbn in *. split; [done|lia].
Qed.

Lemma next_needs_one_selection_witness :
  ∃ u, unit (handleUnitSelect empty "Unit 1") = Some u ∧ u ≠ "".
Proof.
  destruct (next_needs_one_selection (handleUnitSelect empty "Unit 1"))
    as [(u & Hu & Hne & _)|[Hu _]].
  - repeat constructor.
  - reflexivity.
  - by exists u.
  - discriminate Hu.
Defined.

End TopicNext.

(** ** Spans, keys and list blocks of the renderer *)

Section Rendering.
Import Files RendererView.

Lemma contains_char_app c a b :
  contains_char c (a +:+ b) = contains_char c a || contains_char c b.
Proof.
  induction a as [|x a IH]; [done|]. rewrite string_app_cons. simpl.
  by rewrite IH, orb_assoc.
Qed.

Lemma length_app_string (a b : string) :
  String.length (a +:+ b) = String.length a + String.length b.
Proof.
  induction a as [|x a IH]; [done|]. rewrite string_app_cons. simpl.
  by rewrite IH.
Qed.

Lemma span_text_no_asterisk g : span_text g = true → contains_char "*" g = false.
Proof.
  induction g as [|c g IH]; [done|]. unfold span_text. simpl.
  intros [[Hc _]%andb_true_iff Hg]%andb_true_iff.
  apply negb_true_iff in Hc. rewrite Ascii.eqb_sym, Hc. by apply IH.
Qed.

Lemma replace_spans_prefix c d op cl a s :
  contains_char c a = false →
  replace_spans (String c d) op cl 0 (a +:+ s)
  = a +:+ replace_spans (String c d) op cl 0 s.
Proof.
  induction a as [|x a IH]; [done|]. simpl.
  intros [Hc Ha]%orb_false_iff. rewrite !string_app_cons.
  cbn [replace_spans startsWith]. rewrite Ascii.eqb_sym, Hc. cbn [andb].
  by rewrite IH.
Qed.

Lemma replace_spans_skip d op cl x : ∀ s,
  replace_spans d op cl (String.length x) (x +:+ s)
  = replace_spans d op cl 0 s.
Proof.
  induction x as [|c x IH]; intros s; [by destruct s|].
  rewrite string_app_cons. cbn [String.length replace_spans]. apply IH.
Qed.

Lemma startsWith_app d b : startsWith (d +:+ b) d = true.
Proof.
  induction d as [|c d IH]; [done|]. rewrite string_app_cons. simpl.
  by rewrite Ascii.eqb_refl, IH.
Qed.

Lemma substring_app d b : substring (String.length d) (d +:+ b) = b.
Proof. induction d as [|c d IH]; [by destruct b|]. by rewrite string_app_cons. Qed.

Lemma find_close_found d g b :
  span_text g = true →
  find_close (String "*" d) (g +:+ String "*" d +:+ b) = Some (g, b).
Proof.
  induction g as [|c g IH]; unfold span_text.
  - intros _. change ("" +:+ String "*" d +:+ b) with (String "*" d +:+ b).
    rewrite string_app_cons. cbn [find_close].
    change (String "*" (d +:+ b)) with (String "*" d +:+ b).
    by rewrite startsWith_app, substring_app.
  - simpl. intros [[Hc Ht]%andb_true_iff Hg]%andb_true_iff.
    apply negb_true_iff in Hc, Ht. rewrite Hc, Ht. cbn [andb].
    by rewrite (IH Hg).
Qed.

Lemma replace_spans_step d op cl c s' :
  replace_spans d op cl 0 (String c s')
  = if startsWith (String c s') d then
      match find_close d (substring (String.length d) (String c s')) with
      | Some (g, _) =>
          op +:+ g +:+ cl +:+
          replace_spans d op cl
            (String.length d + String.length g + String.length d - 1) s'
      | None => String c (replace_spans d op cl 0 s')
      end
    else String c (replace_spans d op cl 0 s').
Proof. reflexivity. Qed.

Lemma startsWith_cons x s c d :
  startsWith (String x s) (String c d) = Ascii.eqb x c && startsWith s d.
Proof. reflexivity. Qed.

Lemma replace_spans_keep d op cl x s' :
  startsWith (String x s') d = false →
  replace_spans d op cl 0 (String x s')
  = String x (replace_spans d op cl 0 s').
Proof. intros H. by rewrite replace_spans_step, H. Qed.

Lemma replace_spans_span d op cl g b :
  span_text g = true →
  replace_spans (String "*" d) op cl 0
    (String "*" d +:+ g +:+ String "*" d +:+ b)
  = op +:+ g +:+ cl +:+ replace_spans (String "*" d) op cl 0 b.
Proof.
  intros Hg. set (D := String "*" d).
  change (D +:+ g +:+ D +:+ b) with (String "*" (d +:+ g +:+ D +:+ b)).
  rewrite replace_spans_step.
  change (String "*" (d +:+ g +:+ D +:+ b)) with (D +:+ g +:+ D +:+ b).
  rewrite startsWith_app, substring_app.
  pose proof (find_close_found d g b Hg) as Hfound. fold D in Hfound.
  rewrite Hfound. do 3 f_equal.
  rewrite <- !string_app_assoc.
  replace (String.length D + String.length g + String.length D - 1)
    with (String.length ((d +:+ g) +:+ D)).
  - apply replace_spans_skip.
  - rewrite !length_app_string. unfold D. simpl. lia.
Qed.

Lemma replace_spans_after d op cl a g b :
  contains_char "*" a = false → span_text g = true →
  replace_spans (String "*" d) op cl 0
    (a +:+ String "*" d +:+ g +:+ String "*" d +:+ b)
  = a +:+ op +:+ g +:+ cl +:+ replace_spans (String "*" d) op cl 0 b.
Proof.
  intros Ha Hg. rewrite (replace_spans_prefix "*" d _ _ a _ Ha).
  by rewrite (replace_spans_span d op cl g b Hg).
Qed.

(** X19: What [formatLine] does with a span.  After a text without asterisk, a
    text on one line between two double asterisks becomes a [strong] element
    and a non-empty one between two single asterisks, not followed by an
    asterisk, an [em] element; the rest of the line is formatted in the same
    way. *)
Theorem formatLine_spans (a g b : string) :
  contains_char "*" a = false → span_text g = true →
  formatLine (a +:+ "**" +:+ g +:+ "**" +:+ b)
  = a +:+ "<strong>" +:+ g +:+ "</strong>" +:+ formatLine b
  ∧ (g ≠ "" → startsWith b "*" = false →
     formatLine (a +:+ "*" +:+ g +:+ "*" +:+ b)
     = a +:+ "<em>" +:+ g +:+ "</em>" +:+ formatLine b).
Proof.
  intros Ha Hg. unfold formatLine. split.
  - rewrite (replace_spans_after "*" "<strong>" "</strong>" a g b Ha Hg).
    rewrite <- !string_app_assoc.
    rewrite (replace_spans_prefix "*" "" "<em>" "</em>"
               (((a +:+ "<strong>") +:+ g) +:+ "</strong>")); [done|].
    rewrite !contains_char_app, Ha, (span_text_no_asterisk g Hg). done.
  - intros Hne Hb.
    assert (replace_spans "**" "<strong>" "</strong>" 0
              (a +:+ "*" +:+ g +:+ "*" +:+ b)
            = a +:+ "*" +:+ g +:+ "*"
              +:+ replace_spans "**" "<strong>" "</strong>" 0 b) as ->.
    { rewrite (replace_spans_prefix "*" "*" _ _ a _ Ha). f_equal.
      destruct g as [|c g]; [done|].
      pose proof (span_text_no_asterisk _ Hg) as Hg'.
      pose proof Hg' as [Hc _]%orb_false_iff. rewrite Ascii.eqb_sym in Hc.
      change ("*" +:+ String c g +:+ "*" +:+ b)
        with (String "*" (String c (g +:+ "*" +:+ b))).
      rewrite replace_spans_keep by (cbn [startsWith]; by rewrite Hc).
      change (String c (g +:+ "*" +:+ b)) with (String c g +:+ "*" +:+ b).
      rewrite (replace_spans_prefix "*" "*" _ _ (String c g) _ Hg').
      change ("*" +:+ b) with (String "*" b).
      rewrite replace_spans_keep
        by (rewrite startsWith_cons, Hb; apply andb_false_r).
      done. }
    apply (replace_spans_after "" "<em>" "</em>" a g _ Ha Hg).
Qed.

Lemma formatLine_spans_witness :
  formatLine ("3 x " +:+ "**" +:+ "bold" +:+ "**" +:+ " and *em*")
  = "3 x " +:+ "<strong>" +:+ "bold" +:+ "</strong>" +:+ formatLine " and *em*".
Proof.
  apply (formatLine_spans "3 x " "bold" " and *em*"); reflexivity.
Defined.

Lemma find_close_none c d s :
  contains_char c s = false → find_close (String c d) s = None.
Proof.
  induction s as [|x s IH]; [done|]. simpl.
  intros [Hc Hs]%orb_false_iff. rewrite Ascii.eqb_sym, Hc. cbn [andb].
  rewrite (IH Hs). by destruct (is_line_terminator x).
Qed.

(** X20: An asterisk with no partner is left alone: a line of two texts without
    asterisk around one asterisk comes out as it went in. *)
Theorem lone_asterisk_kept (a b : string) :
  contains_char "*" a = false → contains_char "*" b = false →
  formatLine (a +:+ "*" +:+ b) = a +:+ "*" +:+ b.
Proof.
  intros Ha Hb. unfold formatLine.
  assert (replace_spans "**" "<strong>" "</strong>" 0 (a +:+ "*" +:+ b)
          = a +:+ "*" +:+ b) as ->.
  { rewrite (replace_spans_prefix "*" "*" _ _ a _ Ha). f_equal.
    change ("*" +:+ b) with (String "*" b). rewrite replace_spans_keep.
    - f_equal. by apply replace_spans_no_delim.
    - cbn [startsWith]. destruct b as [|c b]; [done|].
      simpl in Hb. apply orb_false_iff in Hb as [Hc _].
      rewrite Ascii.eqb_sym in Hc. by rewrite Hc. }
  rewrite (replace_spans_prefix "*" "" _ _ a _ Ha). f_equal.
  change ("*" +:+ b) with (String "*" b).
  rewrite replace_spans_step. cbn [startsWith]. rewrite Ascii.eqb_refl.
  cbn [andb String.length substring].
  rewrite (find_close_none "*" "" b Hb). f_equal.
  by apply replace_spans_no_delim.
Qed.

Lemma lone_asterisk_kept_witness : formatLine "3 * 4 = 12" = "3 * 4 = 12".
Proof. apply (lone_asterisk_kept "3 " " 4 = 12"); reflexivity. Defined.

Lemma key_used_mono len len' index index' k :
  len ≤ len' → index ≤ index' →
  key_used len index k → key_used len' index' k.
Proof. destruct k; simpl; lia. Qed.

Lemma keys_fresh_mono els index index' :
  keys_fresh els index → index ≤ index' → keys_fresh els index'.
Proof.
  intros [Hnd Hall] Hle. split; [done|].
  eapply Forall_impl; [done|]. intros k. apply key_used_mono; lia.
Qed.

Lemma keys_fresh_push els index index' e :
  keys_fresh els index → index ≤ index' →
  ¬ key_used (length els) index (key_of e) →
  key_used (S (length els)) index' (key_of e) →
  keys_fresh (els ++ [e]) index'.
Proof.
  intros [Hnd Hall] Hle Hnew Hused. split.
  - rewrite fmap_app. apply NoDup_app. split; [done|].
    split; [|apply NoDup_singleton].
    intros k Hk ->%list_elem_of_singleton.
    rewrite Forall_forall in Hall. by apply Hnew, Hall.
  - rewrite fmap_app, length_app, Nat.add_1_r. apply Forall_app. split.
    + eapply Forall_impl; [done|]. intros k. apply key_used_mono; lia.
    + by constructor.
Qed.

Lemma keys_fresh_closeList st index :
  keys_fresh (elements st) index → keys_fresh (elements (closeList st)) index.
Proof.
  intros Hst. unfold closeList.
  destruct (listType st), (listItems st); try done.
  apply (keys_fresh_push _ index); simpl; [done|lia..].
Qed.

Lemma keys_fresh_closeCodeBlock st index :
  keys_fresh (elements st) index →
  keys_fresh (elements (closeCodeBlock st)) index.
Proof.
  intros Hst. unfold closeCodeBlock. destruct (isCodeBlock st); [|done].
  apply (keys_fresh_push _ index); simpl; [done|lia..].
Qed.

Lemma keys_fresh_push_index st index e :
  key_of e = key_index index →
  keys_fresh (elements st) index →
  keys_fresh (elements (push e (closeList st))) (S index).
Proof.
  intros He Hst. apply (keys_fresh_push _ index).
  - by apply keys_fresh_closeList.
  - lia.
  - rewrite He. simpl. lia.
  - rewrite He. simpl. lia.
Qed.

Lemma keys_fresh_processLine st index line :
  keys_fresh (elements st) index →
  keys_fresh (elements (processLine st index line)) (S index).
Proof.
  intros Hst.
  pose proof (keys_fresh_mono _ _ (S index) Hst (Nat.le_succ_diag_r _)) as H0.
  pose proof (keys_fresh_mono _ _ (S index)
                (keys_fresh_closeList _ _ Hst) (Nat.le_succ_diag_r _)) as H1.
  pose proof (keys_fresh_mono _ _ (S index)
                (keys_fresh_closeCodeBlock _ _ Hst) (Nat.le_succ_diag_r _))
    as H2.
  unfold processLine.
  repeat match goal with
  | |- context [if ?b then _ else _] => destruct b
  | |- context [match match_ol_marker ?t with _ => _ end] =>
      destruct (match_ol_marker t)
  end; cbn [elements push_item]; try done;
    by apply keys_fresh_push_index.
Qed.

Lemma keys_fresh_forEachLine lines : ∀ st index,
  keys_fresh (elements st) index →
  keys_fresh (elements (forEachLine st index lines)) (index + length lines).
Proof.
  induction lines as [|line lines IH]; intros st index Hst; simpl.
  - by rewrite Nat.add_0_r.
  - rewrite <- Nat.add_succ_comm. by apply IH, keys_fresh_processLine.
Qed.

(** X21: The React keys of the elements of a rendering are pairwise distinct,
    whatever the content. *)
Theorem element_keys_distinct (content : string) :
  NoDup (key_of <$> FormattedContent content).
Proof.
  unfold FormattedContent, render_lines.
  eapply proj1, keys_fresh_closeCodeBlock, keys_fresh_closeList.
  apply (keys_fresh_forEachLine _ init 0). split; constructor.
Qed.

Lemma trim_whitespace l : all_chars is_whitespace l = true → trim l = "".
Proof.
  unfold trim. induction l as [|c l IH]; [done|]. simpl.
  intros [-> Hl]%andb_true_iff. by apply IH.
Qed.

Lemma split_nl_whitespace s :
  all_chars is_whitespace s = true →
  Forall (λ l, all_chars is_whitespace l = true) (split_nl s).
Proof.
  induction s as [|c s IH]; simpl; [by repeat constructor|].
  intros [Hc Hs]%andb_true_iff. specialize (IH Hs).
  destruct (Ascii.eqb c "010"); [by constructor|].
  destruct (split_nl s) as [|l ls]; [by repeat constructor; simpl; rewrite Hc|].
  inversion IH; subst. constructor; [|done]. simpl. by rewrite Hc.
Qed.

Lemma forEach_blank lines : ∀ st index,
  isCodeBlock st = false →
  Forall (λ l, all_chars is_whitespace l = true) lines →
  forEachLine st index lines = st.
Proof.
  induction lines as [|line lines IH]; intros st index Hcb Hall; [done|].
  inversion Hall; subst. simpl.
  rewrite processLine_blank by (done || by apply trim_whitespace).
  by apply IH.
Qed.

(** X22: A content of white space only, empty lines included, renders as nothing
    at all. *)
Theorem blank_content_renders_nothing (content : string) :
  all_chars is_whitespace content = true → FormattedContent content = [].
Proof.
  intros Hws. unfold FormattedContent, render_lines.
  by rewrite (forEach_blank _ init 0 eq_refl (split_nl_whitespace _ Hws)).
Qed.

Lemma blank_content_renders_nothing_witness :
  FormattedContent ("  " +:+ LF +:+ LF +:+ " ") = [].
Proof. apply blank_content_renders_nothing. reflexivity. Defined.

(** X23: A list ends where the list type changes: an item line of one type
    followed by an item line of the other type gives two list blocks.  It
    also ends at a paragraph: an item line, a paragraph line and an item
    line of the same type give a list, the paragraph and a second list. *)
Theorem list_ends_at_other_block
    (tag1 tag2 : ListTag) (l1 l2 para l3 i1 i2 i3 : string) :
  item_of tag1 l1 = Some i1 →
  item_of tag2 l2 = Some i2 →
  tag1 ≠ tag2 →
  contains_char "010" l1 = false →
  contains_char "010" l2 = false →
  FormattedContent (l1 +:+ LF +:+ l2)
  = [list_el tag1 (key_list 0) [formatLine i1];
     list_el tag2 (key_list 1) [formatLine i2]]
  ∧ (is_paragraph para = true → contains_char "010" para = false →
     item_of tag1 l3 = Some i3 → contains_char "010" l3 = false →
     FormattedContent (l1 +:+ LF +:+ para +:+ LF +:+ l3)
     = [list_el tag1 (key_list 0) [formatLine i1];
        p (key_index 1) (formatLine para);
        list_el tag1 (key_list 2) [formatLine i3]]).
Proof.
  intros H1 H2 Hne N1 N2.
  assert (isCodeBlock (open_item tag1 i1 init) = false) as Hopen
    by (by destruct tag1).
  unfold FormattedContent, render_lines. split.
  - rewrite (split_nl_app _ _ N1), (split_nl_single _ N2). cbn [forEachLine].
    rewrite (processLine_item init 0 tag1 l1 i1 eq_refl H1).
    rewrite (processLine_item _ 1 tag2 l2 i2 Hopen H2).
    by destruct tag1, tag2.
  - intros Hp Np H3 N3.
    rewrite (split_nl_app _ _ N1), (split_nl_app _ _ Np),
      (split_nl_single _ N3). cbn [forEachLine].
    rewrite (processLine_item init 0 tag1 l1 i1 eq_refl H1).
    rewrite (processLine_paragraph _ 1 para Hopen Hp).
    rewrite (processLine_item _ 2 tag1 l3 i3) by (done || by destruct tag1).
    by destruct tag1.
Qed.

Lemma list_ends_at_other_block_witness :
  FormattedContent ("- a" +:+ LF +:+ "1. b")
  = [list_el ul (key_list 0) [formatLine "a"];
     list_el ol (key_list 1) [formatLine "b"]]
  ∧ FormattedContent ("- a" +:+ LF +:+ "then" +:+ LF +:+ "- c")
    = [list_el ul (key_list 0) [formatLine "a"];
       p (key_index 1) (formatLine "then");
       list_el ul (key_list 2) [formatLine "c"]].
Proof.
  destruct (list_ends_at_other_block ul ol "- a" "1. b" "then" "- c"
              "a" "b" "c" eq_refl eq_refl) as [H1 H2]; [done..|].
  split; [exact H1|]. by apply H2.
Defined.

Lemma trimEnd_app x item :
  trimEnd item = item → item ≠ "" → trimEnd (x +:+ item) = x +:+ item.
Proof.
  intros Hitem Hne. induction x as [|c x IH]; [done|].
  rewrite string_app_cons. simpl. rewrite IH.
  destruct (x +:+ item) eqn:Heq; [|done].
  destruct x; [|done]. by destruct item.
Qed.

Lemma skip_digits_app ds rest :
  all_chars is_digit ds = true → skip_digits rest = rest →
  skip_digits (ds +:+ rest) = rest.
Proof.
  intros Hds Hrest. induction ds as [|c ds IH]; [done|].
  simpl in Hds. apply andb_true_iff in Hds as [Hc Hds].
  rewrite string_app_cons. simpl. rewrite Hc. by apply IH.
Qed.

(** X24: The number written before an ordered item is dropped: whatever digits
    stand before the period, the item is the text behind the marker, and two
    lines that differ in the number only render the same. *)
Theorem ordered_number_dropped (ds1 ds2 item : string) :
  ds1 ≠ "" → all_chars is_digit ds1 = true →
  ds2 ≠ "" → all_chars is_digit ds2 = true →
  item ≠ "" → trimEnd item = item →
  contains_char "010" item = false →
  FormattedContent (ds1 +:+ ". " +:+ item)
  = [list_el ol (key_list 0) [formatLine item]]
  ∧ FormattedContent (ds1 +:+ ". " +:+ item)
    = FormattedContent (ds2 +:+ ". " +:+ item).
Proof.
  assert (∀ ds, ds ≠ "" → all_chars is_digit ds = true →
            item ≠ "" → trimEnd item = item →
            contains_char "010" item = false →
            FormattedContent (ds +:+ ". " +:+ item)
            = [list_el ol (key_list 0) [formatLine item]]) as Hone.
  { intros ds Hne Hds Hitem Htrim Hnl.
    assert (contains_char "010" (ds +:+ ". " +:+ item) = false) as Hline.
    { rewrite !contains_char_app, Hnl, !orb_false_r.
      clear -Hds. induction ds as [|c ds IH]; [done|]. simpl in *.
      apply andb_true_iff in Hds as [Hc Hds]. rewrite (IH Hds), orb_false_r.
      destruct (Ascii.eqb_spec "010" c) as [<-|]; [done|done]. }
    assert (item_of ol (ds +:+ ". " +:+ item) = Some item) as Hit.
    { unfold item_of, trim.
      assert (trimStart (ds +:+ ". " +:+ item) = ds +:+ ". " +:+ item) as ->.
      { destruct ds as [|c ds]; [done|]. simpl in Hds.
        apply andb_true_iff in Hds as [Hc _]. rewrite string_app_cons. simpl.
        by destruct c as [[] [] [] [] [] [] [] []]. }
      rewrite <- string_app_assoc, (trimEnd_app _ _ Htrim Hitem),
        string_app_assoc.
      destruct ds as [|c ds]; [done|]. pose proof Hds as Hds'. simpl in Hds.
      apply andb_true_iff in Hds as [Hc _]. unfold match_ol_marker.
      rewrite string_app_cons, Hc.
      change (String c (ds +:+ ". " +:+ item))
        with (String c ds +:+ ". " +:+ item).
      rewrite (skip_digits_app _ _ Hds') by done.
      by rewrite !string_app_cons. }
    unfold FormattedContent, render_lines.
    rewrite (split_nl_single _ Hline). cbn [forEachLine].
    by rewrite (processLine_item init 0 ol _ item eq_refl Hit). }
  intros N1 D1 N2 D2 Hitem Htrim Hnl.
  rewrite !Hone by done. done.
Qed.

Lemma ordered_number_dropped_witness :
  FormattedContent ("7" +:+ ". " +:+ "seventh")
  = FormattedContent ("12" +:+ ". " +:+ "seventh").
Proof.
  apply (ordered_number_dropped "7" "12" "seventh"); done.
Defined.

End Rendering.
